(** * duplicatefilefinder: the candidate narrowing pipeline

    A shallow embedding of [duplicatefilefinder.py]: the three keying
    functions ([os.path.getsize], [get_crc_key], [get_hash_key]), the
    grouping dictionary, the per-stage truncation and the driver
    [filter_duplicate_files], followed by the properties of the pipeline. *)

From Stdlib Require Import ZArith Lia.
From Stdlib.Strings Require Import Byte Ascii.
From stdpp Require Import base tactics option list sorting strings gmap.

Local Open Scope Z_scope.

(** ** Python values, exceptions and results *)

(** A file path, as produced by [get_files]. *)
Definition path := string.

(** The exceptions the file accesses of the module can raise.  Both are
    [OSError]s in Python; nothing in the module catches them. *)
Inductive exn :=
  | FileNotFoundError (filename : path)
  | PermissionError (filename : path).

(** The outcome of a Python call: a returned value or a raised exception. *)
Inductive result (A : Type) :=
  | Ok (a : A)
  | Raise (e : exn).
Arguments Ok {A} a.
Arguments Raise {A} e.

Global Instance result_ret : MRet result := λ A a, Ok a.
Global Instance result_bind : MBind result := λ A B k r,
  match r with
  | Ok a => k a
  | Raise e => Raise e
  end.

(** The keys stored in the [duplicates] dictionary: [int]s (sizes and
    checksums) and [bytes] (digests).  An [int] never equals a [bytes]. *)
Inductive pyval :=
  | PyInt (n : Z)
  | PyBytes (b : list byte).

Global Instance byte_eq_dec : EqDecision byte.
Proof. intros a b. exact (Byte.byte_eq_dec a b). Defined.

Global Instance pyval_eq_dec : EqDecision pyval.
Proof. solve_decision. Defined.

Global Instance exn_eq_dec : EqDecision exn.
Proof. solve_decision. Defined.

Definition Z_of_byte (b : byte) : Z := Z.of_N (Byte.to_N b).

Definition byte_of_Z (z : Z) : byte :=
  match Byte.of_N (Z.to_N (z mod 256)) with
  | Some b => b
  | None => x00
  end.

(** ** [zlib.adler32] *)

Module Adler32.

Definition BASE : Z := 65521.

(** One byte of the running sums [(a, b)]. *)
Definition step (s : Z * Z) (c : byte) : Z * Z :=
  let a := (fst s + Z_of_byte c) mod BASE in
  (a, (snd s + a) mod BASE).

(** [zlib.adler32(data)], with the default start value 1. *)
Definition adler32 (data : list byte) : Z :=
  let s := fold_left step data (1, 0) in
  Z.lor (Z.shiftl (snd s) 16) (fst s).

End Adler32.

(** ** [hashlib.sha256] *)

Module SHA256.

Definition w32 (x : Z) : Z := x mod 2 ^ 32.
Definition add32 (x y : Z) : Z := w32 (x + y).
Definition rotr (n x : Z) : Z :=
  w32 (Z.lor (Z.shiftr x n) (Z.shiftl x (32 - n))).

Definition Ch (x y z : Z) : Z :=
  Z.lxor (Z.land x y) (Z.land (w32 (Z.lnot x)) z).
Definition Maj (x y z : Z) : Z :=
  Z.lxor (Z.lxor (Z.land x y) (Z.land x z)) (Z.land y z).
Definition Sigma0 (x : Z) : Z :=
  Z.lxor (Z.lxor (rotr 2 x) (rotr 13 x)) (rotr 22 x).
Definition Sigma1 (x : Z) : Z :=
  Z.lxor (Z.lxor (rotr 6 x) (rotr 11 x)) (rotr 25 x).
Definition sigma0 (x : Z) : Z :=
  Z.lxor (Z.lxor (rotr 7 x) (rotr 18 x)) (Z.shiftr x 3).
Definition sigma1 (x : Z) : Z :=
  Z.lxor (Z.lxor (rotr 17 x) (rotr 19 x)) (Z.shiftr x 10).

(** The round constants: the fractional parts of the cube roots of the
    first 64 primes. *)
Definition K : list Z :=
  [ 1116352408; 1899447441; 3049323471; 3921009573; 961987163; 1508970993;
    2453635748; 2870763221; 3624381080; 310598401; 607225278; 1426881987;
    1925078388; 2162078206; 2614888103; 3248222580; 3835390401; 4022224774;
    264347078; 604807628; 770255983; 1249150122; 1555081692; 1996064986;
    2554220882; 2821834349; 2952996808; 3210313671; 3336571891; 3584528711;
    113926993; 338241895; 666307205; 773529912; 1294757372; 1396182291;
    1695183700; 1986661051; 2177026350; 2456956037; 2730485921; 2820302411;
    3259730800; 3345764771; 3516065817; 3600352804; 4094571909; 275423344;
    430227734; 506948616; 659060556; 883997877; 958139571; 1322822218;
    1537002063; 1747873779; 1955562222; 2024104815; 2227730452; 2361852424;
    2428436474; 2756734187; 3204031479; 3329325298 ].

(** The eight chaining words. *)
Record state := State { ha : Z; hb : Z; hc : Z; hd : Z;
                        he : Z; hf : Z; hg : Z; hh : Z }.

Definition initial : state :=
  State 1779033703 3144134277 1013904242 2773480762
        1359893119 2600822924 528734635 1541459225.

(** Message padding: a [0x80] byte, zeros up to 56 modulo 64, and the
    bit length on 8 big-endian bytes. *)
Definition be_bytes (n : nat) (x : Z) : list byte :=
  map (λ i : nat, byte_of_Z (Z.shiftr x (8 * Z.of_nat i))) (rev (seq 0 n)).

Definition pad (msg : list byte) : list byte :=
  let len := Z.of_nat (length msg) in
  msg ++ x80 :: repeat x00 (Z.to_nat ((55 - len) mod 64))
      ++ be_bytes 8 (8 * len).

Fixpoint blocks (n : nat) (l : list byte) : list (list byte) :=
  match n with
  | O => []
  | S n' => take 64 l :: blocks n' (drop 64 l)
  end.

Definition be_word (bs : list byte) : Z :=
  fold_left (λ acc b, acc * 256 + Z_of_byte b) bs 0.

Fixpoint words (n : nat) (l : list byte) : list Z :=
  match n with
  | O => []
  | S n' => be_word (take 4 l) :: words n' (drop 4 l)
  end.

(** The message schedule: 16 words of the block, extended to 64. *)
Fixpoint extend (n : nat) (w : list Z) : list Z :=
  match n with
  | O => w
  | S n' =>
      let t := length w in
      let at_ (k : nat) := nth (t - k) w 0 in
      extend n' (w ++ [add32 (add32 (sigma1 (at_ 2%nat)) (at_ 7%nat))
                             (add32 (sigma0 (at_ 15%nat)) (at_ 16%nat))])
  end.

Definition round (s : state) (kw : Z * Z) : state :=
  let t1 := add32 (add32 (add32 (hh s) (Sigma1 (he s)))
                         (add32 (Ch (he s) (hf s) (hg s)) (fst kw))) (snd kw) in
  let t2 := add32 (Sigma0 (ha s)) (Maj (ha s) (hb s) (hc s)) in
  State (add32 t1 t2) (ha s) (hb s) (hc s)
        (add32 (hd s) t1) (he s) (hf s) (hg s).

Definition compress (h : state) (block : list byte) : state :=
  let w := extend 48 (words 16 block) in
  let s := fold_left round (zip K w) h in
  State (add32 (ha h) (ha s)) (add32 (hb h) (hb s))
        (add32 (hc h) (hc s)) (add32 (hd h) (hd s))
        (add32 (he h) (he s)) (add32 (hf h) (hf s))
        (add32 (hg h) (hg s)) (add32 (hh h) (hh s)).

Definition output (h : state) : list byte :=
  be_bytes 4 (ha h) ++ be_bytes 4 (hb h) ++ be_bytes 4 (hc h)
  ++ be_bytes 4 (hd h) ++ be_bytes 4 (he h) ++ be_bytes 4 (hf h)
  ++ be_bytes 4 (hg h) ++ be_bytes 4 (hh h).

(** The SHA-256 digest of a whole message. *)
Definition sha256 (msg : list byte) : list byte :=
  let p := pad msg in
  output (fold_left compress (blocks (length p / 64) p) initial).

(** [hashlib]'s streaming interface.  A hash object stands for the bytes
    fed to it so far: by [hashlib]'s contract, repeated [update] calls are
    equivalent to one call with the concatenation of their arguments. *)
Definition hash_object := list byte.
Definition new : hash_object := [].
Definition update (h : hash_object) (chunk : list byte) : hash_object :=
  h ++ chunk.
Definition digest (h : hash_object) : list byte := sha256 h.

End SHA256.

Definition ascii_bytes (s : string) : list byte :=
  String.list_byte_of_string s.

(** ** The file system *)

(** What the module observes of a regular file: its bytes, and whether
    [open(filename, 'rb')] is permitted. *)
Record file := File { content : list byte; readable : bool }.

(** The directory tree during one run: the files that exist, by path. *)
Abbreviation filesystem := (gmap string file).

(** [os.path.getsize(filename)]: a metadata lookup, which fails only when
    the path does not exist. *)
Definition getsize (fs : filesystem) (filename : path) : result pyval :=
  match fs !! filename with
  | Some f => Ok (PyInt (Z.of_nat (length (content f))))
  | None => Raise (FileNotFoundError filename)
  end.

(** [open(filename, 'rb')]: the file object is the bytes not yet read. *)
Definition open_rb (fs : filesystem) (filename : path) : result (list byte) :=
  match fs !! filename with
  | Some f =>
      if readable f then Ok (content f) else Raise (PermissionError filename)
  | None => Raise (FileNotFoundError filename)
  end.

(** [inputfile.read(n)]: the next [n] bytes (fewer at the end of the file,
    [b''] once it is exhausted) and the file object after the read. *)
Definition read (n : nat) (inputfile : list byte) : list byte * list byte :=
  (take n inputfile, drop n inputfile).

(** ** The keying functions *)

(** The loop of [get_hash_key]:
    [for chunk in iter(lambda: inputfile.read(1024 * 8), b''):
         hash_object.update(chunk)].
    [reads] bounds the number of calls of [read]; [read_chunks_enough]
    shows that the bound [get_hash_key] passes always reaches the
    sentinel [b'']. *)
Fixpoint read_chunks (reads : nat) (inputfile : list byte)
    (hash_object : SHA256.hash_object) : SHA256.hash_object :=
  match reads with
  | O => hash_object
  | S reads' =>
      let '(chunk, inputfile') := read (1024 * 8) inputfile in
      match chunk with
      | [] => hash_object
      | _ :: _ => read_chunks reads' inputfile' (SHA256.update hash_object chunk)
      end
  end.

Definition get_hash_key (fs : filesystem) (filename : path) : result pyval :=
  inputfile ← open_rb fs filename;
  let hash_object := read_chunks (S (length inputfile)) inputfile SHA256.new in
  Ok (PyBytes (SHA256.digest hash_object)).

Definition get_crc_key (fs : filesystem) (filename : path) : result pyval :=
  inputfile ← open_rb fs filename;
  let '(chunk, _) := read 1024 inputfile in
  Ok (PyInt (Adler32.adler32 chunk)).

(** ** The [duplicates] dictionary *)

(** A Python [dict] from keys to lists of paths, in insertion order (the
    order of Python 3.7 and later; it only decides which of several groups of
    equal length a budget cuts off).  [zlib.adler32] is likewise taken
    unsigned, as Python 3 returns it. *)
Abbreviation dict := (list (pyval * list path)).

(** [duplicates.setdefault(key, []).append(filepath)]: a new key enters at
    the end with a one-element list; a known key has its list extended in
    place. *)
Fixpoint setdefault_append (duplicates : dict) (key : pyval) (filepath : path)
    : dict :=
  match duplicates with
  | [] => [(key, [filepath])]
  | (k, filepaths) :: rest =>
      if decide (k = key) then (k, filepaths ++ [filepath]) :: rest
      else (k, filepaths) :: setdefault_append rest key filepath
  end.

(** [duplicates.values()] *)
Definition values (duplicates : dict) : list (list path) := duplicates.*2.

(** [duplicates[key]] where the key is present, [[]] otherwise. *)
Fixpoint getitem (duplicates : dict) (key : pyval) : list path :=
  match duplicates with
  | [] => []
  | (k, filepaths) :: rest =>
      if decide (k = key) then filepaths else getitem rest key
  end.

(** [sorted(groups, key=len, reverse=True)].  Python's sort is stable, also
    with [reverse=True]: groups of equal length keep their order.  An
    insertion sort from the right gives exactly that list. *)
Fixpoint insert_by_len (x : list path) (l : list (list path))
    : list (list path) :=
  match l with
  | [] => [x]
  | y :: l' =>
      if decide (length x < length y)%nat then y :: insert_by_len x l'
      else x :: y :: l'
  end.

Definition sorted_by_len_reverse (groups : list (list path))
    : list (list path) :=
  foldr insert_by_len [] groups.

(** [l[:stop]]: everything for [None], the first [stop] elements for a
    non-negative [stop], all but the last [-stop] for a negative one. *)
Definition slice_to {A} (l : list A) (stop : option Z) : list A :=
  match stop with
  | None => l
  | Some n =>
      if decide (0 ≤ n) then take (Z.to_nat n) l
      else take (length l - Z.to_nat (- n)) l
  end.

(** [len(filepaths) > 1] *)
Definition multi (filepaths : list path) : Prop := (1 < length filepaths)%nat.
Global Instance multi_dec filepaths : Decision (multi filepaths).
Proof. unfold multi. apply _. Defined.

(** ** The pipeline driver *)

Definition keyfunction := path → result pyval.

(** The inner loop of [filter_duplicate_files]: every file is keyed and
    appended to the group of its key.  The counters [count] and
    [duplicate_count] only feed the progress line and are left out.  An
    exception of the key function leaves the loop and the function. *)
Fixpoint group_files (kf : keyfunction) (files : list path)
    (duplicates : dict) : result dict :=
  match files with
  | [] => Ok duplicates
  | filepath :: rest =>
      key ← kf filepath;
      group_files kf rest (setdefault_append duplicates key filepath)
  end.

(** The two statements after the inner loop: the next candidate list. *)
Definition next_files (duplicates : dict) (topcount : option Z) : list path :=
  let sortedfiles := sorted_by_len_reverse (values duplicates) in
  concat (filter multi (slice_to sortedfiles topcount)).

(** [X if top else None]: [None] and [0] are false. *)
Definition if_top (top : option Z) (f : Z → Z) : option Z :=
  match top with
  | Some t => if decide (t = 0) then None else Some (f t)
  | None => None
  end.

(** The tuple [iterations]: key function, progress label, budget. *)
Definition iterations (fs : filesystem) (top : option Z)
    : list (keyfunction * string * option Z) :=
  [ (getsize fs, "By Size", if_top top (λ t, t ^ 2));
    (get_crc_key fs, "By CRC ", if_top top (λ t, t * 2));
    (get_hash_key fs, "By Hash", None) ].

(** The outer loop, on the loop state [(duplicates, files)].  Every
    iteration starts with [duplicates.clear()]. *)
Fixpoint run_iterations (its : list (keyfunction * string * option Z))
    (duplicates : dict) (files : list path) : result (dict * list path) :=
  match its with
  | [] => Ok (duplicates, files)
  | (kf, name, topcount) :: rest =>
      duplicates' ← group_files kf files [];
      run_iterations rest duplicates' (next_files duplicates' topcount)
  end.

Definition filter_duplicate_files (fs : filesystem) (files : list path)
    (top : option Z) : result (list (list path)) :=
  '(duplicates, _) ← run_iterations (iterations fs top) [] files;
  Ok (filter multi (values duplicates)).

(** ** Arguments and the main program *)

Record args := Args {
  directory : string;
  fast : bool;
  delete_old : bool;
  show_all : bool;
  top : option Z;
  include_hidden : bool;
  include_empty : bool
}.

(** [parse_arguments], from the namespace [parser.parse_args()] returns
    ([-top] has [type=int] and default 3, so [top] is an [int] there):
    [-a] and [-top 0] both reset [top] to [None]; nothing else is looked
    at. *)
Definition parse_arguments (parsed : args) : args :=
  if show_all parsed || bool_decide (top parsed = Some 0)
  then Args (directory parsed) (fast parsed) (delete_old parsed)
            (show_all parsed) None (include_hidden parsed)
            (include_empty parsed)
  else parsed.

(** [DUPLICATES] of the main program, for the enumerated [FILES]. *)
Definition main_duplicates (fs : filesystem) (parsed : args)
    (FILES : list path) : result (list (list path)) :=
  let ARGS := parse_arguments parsed in
  filter_duplicate_files fs FILES (if fast ARGS then top ARGS else None).

(** ** Sample runs *)

Definition bytes_file (s : string) : file := File (ascii_bytes s) true.

Definition sample_fs : filesystem :=
  list_to_map [ ("a1", bytes_file "AAAA"); ("a2", bytes_file "AAAA");
                ("b", bytes_file "AAAB"); ("c1", bytes_file "CC");
                ("c2", bytes_file "CC"); ("d", bytes_file "D");
                ("locked", File (ascii_bytes "AAAA") false) ]%string.

(** ** Notions used in the statements *)

Local Open Scope nat_scope.

Definition keys (duplicates : dict) : list pyval := duplicates.*1.

(** The dictionary the inner loop builds when every key function call
    returns: [key] tells the key of each file. *)
Definition build (key : path → pyval) (files : list path) (d : dict) : dict :=
  foldl (λ d f, setdefault_append d (key f) f) d files.

(** The key a key function returns for a file (a placeholder where it
    raises). *)
Definition key_of (kf : keyfunction) (f : path) : pyval :=
  match kf f with
  | Ok k => k
  | Raise _ => PyInt 0%Z
  end.

Definition returns {A} (r : result A) : Prop := ∃ a, r = Ok a.

(** [longer x y]: [x] may stand before [y] in a list sorted by length,
    longest first. *)
Definition longer (x y : list path) : Prop := length y ≤ length x.

(** The groups of a stage that have at least two members. *)
Definition surviving (d : dict) : list (list path) := filter multi (values d).

(** The groups whose files [next_files] hands on. *)
Definition kept_groups (d : dict) (topcount : option Z) : list (list path) :=
  filter multi (slice_to (sorted_by_len_reverse (values d)) topcount).

(** The loop state after the first [n] iterations.  Its second component
    is the candidate list handed to iteration [n + 1]. *)
Definition state_after (fs : filesystem) (files : list path) (top : option Z)
    (n : nat) : result (dict * list path) :=
  run_iterations (take n (iterations fs top)) [] files.

(** [filename] exists and may be opened for reading. *)
Definition readable_in (fs : filesystem) (filename : path) : Prop :=
  ∃ f, fs !! filename = Some f ∧ readable f = true.


Definition sample_files : list path :=
  ["c1"; "a1"; "c2"; "b"; "a2"; "d"]%string.



(** The candidates [fl] are the files of the [budget] largest surviving
    groups of [d] (of all of them when there are fewer): no more than
    [budget] groups are kept, and no group left out is longer than a group
    kept. *)
Definition keeps_largest (d : dict) (budget : nat) (fl : list path) : Prop :=
  let ranked := sorted_by_len_reverse (surviving d) in
  fl = concat (take budget ranked)
  ∧ length (take budget ranked) ≤ budget
  ∧ ∀ g g', g ∈ take budget ranked → g' ∈ drop budget ranked →
            length g' ≤ length g.

(** The candidates [fl] are the files of all surviving groups of [d]. *)
Definition keeps_all (d : dict) (fl : list path) : Prop :=
  ∃ kept, kept ≡ₚ surviving d ∧ fl = concat kept.

(** [p] and [q] stand at two different positions of [l] (they may be the
    same path). *)
Definition twice (p q : path) (l : list path) : Prop :=
  [p; q] `sublist_of` l ∨ [q; p] `sublist_of` l.

Definition negative_top_args : args :=
  Args "." true false false (Some (-1)%Z) false false.

Definition pairs_fs : filesystem :=
  list_to_map [ ("x1", bytes_file "XXXX"); ("x2", bytes_file "XXXX");
                ("y1", bytes_file "YYYY"); ("y2", bytes_file "YYYY");
                ("z1", bytes_file "ZZZZ"); ("z2", bytes_file "ZZZZ") ]%string.





(** ** Further notions *)

Global Instance result_eq_dec {A} `{EqDecision A} : EqDecision (result A).
Proof. solve_decision. Defined.

(** The candidates of a stage that share their key with another candidate
    of that stage. *)
Definition survivors (key : path → pyval) (fl : list path) : list path :=
  filter (λ f, multi (filter (λ f', key f' = key f) fl)) fl.

(** The inner loop of [filter_duplicate_files] once more, now with the
    counters of its progress line: [i] files checked, [duplicate_count] groups
    that reached two members, [count] files in such groups.  The result
    carries the numbers of the last, forced [update] call, in the order
    [(i, duplicate_count, count)]. *)
Fixpoint group_files_progress (kf : keyfunction) (files : list path)
    (duplicates : dict) (count duplicate_count i : nat)
    : result (dict * (nat * nat * nat)) :=
  match files with
  | [] => Ok (duplicates, (i, duplicate_count, count))
  | filepath :: rest =>
      key ← kf filepath;
      let duplicates := setdefault_append duplicates key filepath in
      let n := length (getitem duplicates key) in
      let '(count, duplicate_count) :=
        if decide (1 < n) then
          if decide (n = 2) then (count + 1 + 1, duplicate_count + 1)
          else (count + 1, duplicate_count)
        else (count, duplicate_count) in
      group_files_progress kf rest duplicates count duplicate_count (i + 1)
  end.

(** ** The deleter *)

(** What [print_duplicates] and [delete_duplicates] can raise: the errors
    of the file accesses, and [IndexError] for [paths[0]] on an empty
    group. *)
Inductive pyerror :=
  | OSError (e : exn)
  | IndexError.

Inductive outcome (A : Type) :=
  | Returned (a : A)
  | Raised (e : pyerror).
Arguments Returned {A} a.
Arguments Raised {A} e.

Global Instance outcome_ret : MRet outcome := λ A a, Returned a.
Global Instance outcome_bind : MBind outcome := λ A B k r,
  match r with
  | Returned a => k a
  | Raised e => Raised e
  end.

Definition lift {A} (r : result A) : outcome A :=
  match r with
  | Ok a => Returned a
  | Raise e => Raised (OSError e)
  end.

(** [os.path.getsize(paths[0])] *)
Definition getsize_first (fs : filesystem) (paths : list path) : outcome Z :=
  match paths with
  | [] => Raised IndexError
  | filename :: _ =>
      match fs !! filename with
      | Some f => Returned (Z.of_nat (length (content f)))
      | None => Raised (OSError (FileNotFoundError filename))
      end
  end.

(** [os.path.getmtime(filename)].  The modification times are given by
    [mtime], as integers (only their order is used). *)
Definition getmtime (fs : filesystem) (mtime : path → Z) (filename : path)
    : outcome Z :=
  match fs !! filename with
  | Some _ => Returned (mtime filename)
  | None => Raised (OSError (FileNotFoundError filename))
  end.

(** [sorted(l, key=key, reverse=True)]: the keys are computed first, one
    call per element and in order; the sort is stable, elements with equal
    keys keep their order. *)
Fixpoint with_keys {A} (key : A → outcome Z) (l : list A)
    : outcome (list (Z * A)) :=
  match l with
  | [] => Returned []
  | x :: l' =>
      k ← key x;
      rest ← with_keys key l';
      Returned ((k, x) :: rest)
  end.

Fixpoint insert_by_key {A} (kx : Z * A) (l : list (Z * A)) : list (Z * A) :=
  match l with
  | [] => [kx]
  | ky :: l' =>
      if decide (kx.1 < ky.1)%Z then ky :: insert_by_key kx l'
      else kx :: ky :: l'
  end.

Definition sorted_reverse {A} (key : A → outcome Z) (l : list A)
    : outcome (list A) :=
  keyed ← with_keys key l;
  Returned (foldr insert_by_key [] keyed).*2.

(** The loop [for path in sortedpaths[1:]: ... os.remove(path)], on the
    file system.  An exception leaves the files removed so far removed. *)
Fixpoint remove_all (fs : filesystem) (paths : list path)
    : filesystem * outcome () :=
  match paths with
  | [] => (fs, Returned ())
  | filename :: rest =>
      match fs !! filename with
      | Some _ => remove_all (delete filename fs) rest
      | None => (fs, Raised (OSError (FileNotFoundError filename)))
      end
  end.

(** The body of the loop of [delete_duplicates] for one group: the header
    line is printed (it needs the size of the first path), the paths are
    sorted by modification time, newest first, and all but the first are
    removed.  The printed text is left out. *)
Definition delete_older (fs : filesystem) (mtime : path → Z)
    (paths : list path) : filesystem * outcome () :=
  match getsize_first fs paths with
  | Raised e => (fs, Raised e)
  | Returned _ =>
      match sorted_reverse (getmtime fs mtime) paths with
      | Raised e => (fs, Raised e)
      | Returned sortedpaths => remove_all fs (drop 1 sortedpaths)
      end
  end.

Fixpoint delete_groups (fs : filesystem) (mtime : path → Z)
    (sortedfiles : list (list path)) : filesystem * outcome () :=
  match sortedfiles with
  | [] => (fs, Returned ())
  | paths :: rest =>
      match delete_older fs mtime paths with
      | (fs', Returned _) => delete_groups fs' mtime rest
      | (fs', Raised e) => (fs', Raised e)
      end
  end.

(** [delete_duplicates(files, delete)], with the file system before and
    after. *)
Definition delete_duplicates (fs : filesystem) (mtime : path → Z)
    (files : list (list path)) (delete : bool) : filesystem * outcome () :=
  if delete then
    match sorted_reverse (getsize_first fs) files with
    | Raised e => (fs, Raised e)
    | Returned sortedfiles => delete_groups fs mtime sortedfiles
    end
  else (fs, Returned ()).


(** ** Strings and POSIX paths *)

Definition chars (s : string) : list ascii := String.list_ascii_of_string s.
Definition of_chars (l : list ascii) : string := String.string_of_list_ascii l.

(** [s.startswith(pre)] and [s.endswith(suf)] *)
Definition startswith (pre s : string) : bool :=
  bool_decide (chars pre `prefix_of` chars s).
Definition endswith (suf s : string) : bool :=
  bool_decide (chars suf `suffix_of` chars s).

(** [s.split("/")]: the pieces between the separators; there is always at
    least one piece. *)
Fixpoint split_chars (l : list ascii) : list (list ascii) :=
  match l with
  | [] => [[]]
  | c :: l' =>
      if decide (c = "/"%char) then [] :: split_chars l'
      else match split_chars l' with
           | w :: ws => (c :: w) :: ws
           | [] => [[c]]
           end
  end.

Definition split_sep (s : string) : list string :=
  of_chars <$> split_chars (chars s).

(** [os.path.join(a, b)] of [posixpath] *)
Definition path_join (a b : string) : string :=
  if startswith "/" b then b
  else if bool_decide (a = ""%string) || endswith "/" a then (a +:+ b)%string
  else (a +:+ "/" +:+ b)%string.

(** ** The enumerator *)

(** The hidden-file test of [get_files]:
    [reduce(lambda r, d: r and not d.startswith("."), parts, True)]. *)
Definition no_hidden_part (parts : list string) : bool :=
  foldl (λ r d, r && negb (startswith "." d)) true parts.

Section get_files.

(** [os.walk(directory)] is not modelled: [walk] is the list of triples
    [(dirpath, dirnames, filenames)] it yields.  [islink] tells the
    symbolic links ([os.path.islink] does not raise), and [abspath] is
    [os.path.abspath], which depends on the working directory. *)
Variable walk : list (string * list string * list string).
Variable islink : path → bool.
Variable abspath : path → path.
Variable fs : filesystem.
Variables include_hidden include_empty : bool.

(** The condition of the generator expression for one file name, with the
    short circuits of [and] and [or]: the size is only asked for when
    everything before holds and [include_empty] is off. *)
Definition get_files_condition (dirpath filename : string) : result bool :=
  let p := path_join dirpath filename in
  if islink p then Ok false
  else if negb (endswith ".pdf" filename) then Ok false
  else if negb (include_hidden || no_hidden_part (split_sep (abspath p)))
       then Ok false
  else if include_empty then Ok true
  else match fs !! p with
       | Some f => Ok (bool_decide (0 < length (content f)))
       | None => Raise (FileNotFoundError p)
       end.

Fixpoint get_files_in (dirpath : string) (filenames : list string)
    : result (list path) :=
  match filenames with
  | [] => Ok []
  | filename :: rest =>
      b ← get_files_condition dirpath filename;
      l ← get_files_in dirpath rest;
      Ok (if b : bool then path_join dirpath filename :: l else l)
  end.

(** [get_files(directory, include_hidden, include_empty)], as the list of
    the paths the generator yields.  On an unchanging file system the
    first exception met by consuming the generator is the one raised
    here. *)
Fixpoint get_files_from
    (triples : list (string * list string * list string))
    : result (list path) :=
  match triples with
  | [] => Ok []
  | (dirpath, _, filenames) :: rest =>
      l1 ← get_files_in dirpath filenames;
      l2 ← get_files_from rest;
      Ok (l1 ++ l2)
  end.

Definition get_files : result (list path) := get_files_from walk.

(** The file names of the walk, each with its directory. *)
Definition walk_entries : list (string * string) :=
  '(dirpath, _, filenames) ← walk; (λ filename, (dirpath, filename)) <$> filenames.

(** The files [get_files] is to yield. *)
Definition wanted (entry : string * string) : bool :=
  let p := path_join entry.1 entry.2 in
  negb (islink p)
  && endswith ".pdf" entry.2
  && (include_hidden
      || forallb (λ d, negb (startswith "." d)) (split_sep (abspath p)))
  && (include_empty
      || match fs !! p with
         | Some f => bool_decide (content f ≠ [])
         | None => false
         end).

(** The generator over a flat list of entries. *)
Fixpoint collect (entries : list (string * string)) : result (list path) :=
  match entries with
  | [] => Ok []
  | entry :: rest =>
      b ← get_files_condition entry.1 entry.2;
      l ← collect rest;
      Ok (if b : bool then path_join entry.1 entry.2 :: l else l)
  end.

(** The entries on which the size is asked for. *)
Definition stat_needed (entry : string * string) : bool :=
  let p := path_join entry.1 entry.2 in
  negb (islink p)
  && endswith ".pdf" entry.2
  && (include_hidden
      || forallb (λ d, negb (startswith "." d)) (split_sep (abspath p)))
  && negb include_empty.

End get_files.

(** Lines 146 to 148 of the module: the arguments, the enumeration and the
    pipeline. *)
Definition find_duplicates (walk : list (string * list string * list string))
    (islink : path → bool) (abspath : path → path) (fs : filesystem)
    (parsed : args) : result (list (list path)) :=
  let ARGS := parse_arguments parsed in
  FILES ← get_files walk islink abspath fs
            (include_hidden ARGS) (include_empty ARGS);
  filter_duplicate_files fs FILES (if fast ARGS then top ARGS else None).

Definition sample_walk : list (string * list string * list string) :=
  [ ("docs", ["sub"], ["a.pdf"; "b.txt"; "gone.pdf"]);
    ("docs/sub", [], ["c.pdf"; "e.pdf"; ".h.pdf"]) ]%string.

Definition docs_fs : filesystem :=
  list_to_map [ ("docs/a.pdf", bytes_file "AAAA");
                ("docs/b.txt", bytes_file "AAAA");
                ("docs/sub/c.pdf", bytes_file "AAAA");
                ("docs/sub/e.pdf", bytes_file "");
                ("docs/sub/.h.pdf", bytes_file "AAAA") ]%string.

Definition home_abspath (p : path) : path := ("/home/u/" +:+ p)%string.

Definition default_args : args := Args "docs" false false false (Some 3%Z) false false.

(** A walk of [docs_fs] and a command line with [-delete]. *)
Definition docs_walk : list (string * list string * list string) :=
  [ ("docs", ["sub"], ["a.pdf"; "b.txt"]);
    ("docs/sub", [], ["c.pdf"; "e.pdf"; ".h.pdf"]) ]%string.

Definition delete_args : args := Args "docs" false true false (Some 3%Z) false false.


Definition docs_mtime (p : path) : Z :=
  if decide (p = "docs/sub/c.pdf"%string) then 5%Z else 1%Z.

(** ** The reporter *)

(** [min(m)] and [max(m)] of a non-empty list of strings [first :: m];
    strings are ordered character by character, as Python orders them. *)
Definition str_min (first : string) (m : list string) : string :=
  foldl (λ acc x, if String.ltb x acc then x else acc) first m.
Definition str_max (first : string) (m : list string) : string :=
  foldl (λ acc x, if String.ltb acc x then x else acc) first m.

(** The loop of [os.path.commonprefix]:
    [for i, c in enumerate(s1): if c != s2[i]: return s1[:i]], and [s1] when
    it ends.  It is only run on [s1 <= s2], where [s2[i]] is always in
    range. *)
Fixpoint common_prefix (s1 s2 : string) : string :=
  match s1, s2 with
  | String c s1', String d s2' =>
      if decide (c = d) then String c (common_prefix s1' s2') else ""
  | _, _ => ""
  end.

(** [os.path.commonprefix(m)] *)
Definition commonprefix (m : list string) : string :=
  match m with
  | [] => ""
  | first :: m' => common_prefix (str_min first m') (str_max first m')
  end.

(** [l.lstrip] of the characters that satisfy [P]. *)
Fixpoint strip_while (P : ascii → bool) (l : list ascii) : list ascii :=
  match l with
  | c :: l' => if P c then strip_while P l' else l
  | [] => []
  end.

Definition is_slash (c : ascii) : bool := bool_decide (c = "/"%char).

(** [os.path.dirname(p)] of [posixpath]: [head = p[:p.rfind('/') + 1]], with
    its trailing slashes stripped unless it consists of slashes only. *)
Definition dirname (p : string) : string :=
  let head := reverse (strip_while (λ c, negb (is_slash c)) (reverse (chars p))) in
  if forallb is_slash head then of_chars head
  else of_chars (reverse (strip_while is_slash (reverse head))).

(** [sorted(paths)]: ascending, by the order of strings. *)
Fixpoint insert_str (x : string) (l : list string) : list string :=
  match l with
  | [] => [x]
  | y :: l' => if String.ltb y x then y :: insert_str x l' else x :: y :: l'
  end.
Definition sorted_str (l : list string) : list string := foldr insert_str [] l.

(** [s[n:]] *)
Definition str_from (n : nat) (s : string) : string := of_chars (drop n (chars s)).

(** [enumerate(l, start=1)] *)
Definition enumerate1 {A} (l : list A) : list (nat * A) := zip (seq 1 (length l)) l.

(** What [print_duplicates] prints for one group: the header line with the
    position, the number of files, the size of the first one and the
    directory prefix, then one numbered line per path, sorted, each path cut
    by [path[len(prefix) + 1:]].  The text formatting is left out. *)
Record report_entry := ReportEntry {
  entry_pos : nat;
  entry_found : nat;
  entry_size : Z;
  entry_prefix : string;
  entry_lines : list (nat * string)
}.

Definition print_group (fs : filesystem) (pos : nat) (paths : list path)
    : outcome report_entry :=
  let prefix := dirname (commonprefix paths) in
  size ← getsize_first fs paths;
  Returned (ReportEntry pos (length paths) size prefix
              (enumerate1 (str_from (String.length prefix + 1)
                             <$> sorted_str paths))).

Fixpoint print_groups (fs : filesystem) (pos : nat)
    (groups : list (list path)) : outcome (list report_entry) :=
  match groups with
  | [] => Returned []
  | paths :: rest =>
      entry ← print_group fs pos paths;
      entries ← print_groups fs (S pos) rest;
      Returned (entry :: entries)
  end.

(** [print_duplicates(files, displaycount)] *)
Definition print_duplicates (fs : filesystem) (files : list (list path))
    (displaycount : option Z) : outcome (list report_entry) :=
  sortedfiles ← sorted_reverse (getsize_first fs) files;
  print_groups fs 1 (slice_to sortedfiles displaycount).

(** The size of the first file of a group, where there is one. *)
Definition first_size (fs : filesystem) (g : list path) : Z :=
  match g with
  | p :: _ =>
      match fs !! p with
      | Some f => Z.of_nat (length (content f))
      | None => 0%Z
      end
  | [] => 0%Z
  end.

(** ** The main program *)

(** The block under [if __name__ == "__main__"]: arguments, enumeration,
    pipeline, report, deletion and the numbers of the closing line (the
    number of duplicate sets and of files in them).  The result is the file
    system afterwards and what was printed, or the exception. *)
Definition main (walk : list (string * list string * list string))
    (islink : path → bool) (abspath : path → path) (mtime : path → Z)
    (fs : filesystem) (parsed : args)
    : filesystem * outcome (list report_entry * (nat * nat)) :=
  let ARGS := parse_arguments parsed in
  match find_duplicates walk islink abspath fs parsed with
  | Raise e => (fs, Raised (OSError e))
  | Ok DUPLICATES =>
      match print_duplicates fs DUPLICATES (top ARGS) with
      | Raised e => (fs, Raised e)
      | Returned report =>
          match delete_duplicates fs mtime DUPLICATES (delete_old ARGS) with
          | (fs', Raised e) => (fs', Raised e)
          | (fs', Returned _) =>
              (fs', Returned
                      (report,
                       (length DUPLICATES,
                        foldl (λ sumValue files, sumValue + length files)
                          0 DUPLICATES)))
          end
      end
  end.

(** * Properties *)

(** ** Test vectors and sample runs *)

Lemma bind_Ok {A B} (a : A) (k : A → result B) : Ok a ≫= k = k a.
Proof. reflexivity. Qed.

Example adler32_wikipedia :
  Adler32.adler32 (ascii_bytes "Wikipedia") = 300286872%Z.
Proof. vm_compute. reflexivity. Qed.

Example sha256_abc :
  map Z_of_byte (SHA256.sha256 (ascii_bytes "abc")) =
  [186; 120; 22; 191; 143; 1; 207; 234; 65; 65; 64; 222; 93; 174; 34; 35;
   176; 3; 97; 163; 150; 23; 122; 156; 180; 16; 255; 97; 242; 0; 21; 173]%Z.
Proof. vm_compute. reflexivity. Qed.

Example sha256_empty :
  map Z_of_byte (SHA256.sha256 []) =
  [227; 176; 196; 66; 152; 252; 28; 20; 154; 251; 244; 200; 153; 111; 185;
   36; 39; 174; 65; 228; 100; 155; 147; 76; 164; 149; 153; 27; 120; 82; 184; 85]%Z.
Proof. vm_compute. reflexivity. Qed.

Example sha256_two_blocks :
  map Z_of_byte (SHA256.sha256 (repeat "a"%byte 100)) =
  [40; 22; 89; 120; 136; 228; 160; 211; 163; 107; 130; 184; 51; 22; 171; 50;
   104; 14; 184; 240; 15; 140; 211; 185; 4; 214; 129; 36; 109; 40; 90; 14]%Z.
Proof. vm_compute. reflexivity. Qed.

Example scenario_three_files :
  filter_duplicate_files sample_fs ["a1"; "b"; "a2"]%string None
  = Ok [["a1"; "a2"]%string].
Proof. vm_compute. reflexivity. Qed.

Example scenario_top1 :
  filter_duplicate_files sample_fs ["c1"; "a1"; "c2"; "b"; "a2"]%string
    (Some 1%Z)
  = Ok [["a1"; "a2"]%string].
Proof. vm_compute. reflexivity. Qed.

(** ** The dictionary *)

Lemma getitem_setdefault_append d k f k' :
  getitem (setdefault_append d k f) k'
  = if decide (k = k') then getitem d k ++ [f] else getitem d k'.
Proof.
  induction d as [|[k0 l0] d IH]; simpl.
  - repeat case_decide; done.
  - repeat (case_decide; simpl; simplify_eq); try done;
      rewrite IH; case_decide; done.
Qed.

Lemma keys_setdefault_append d k f :
  keys (setdefault_append d k f)
  = if decide (k ∈ keys d) then keys d else keys d ++ [k].
Proof.
  unfold keys. induction d as [|[k0 l0] d IH]; csimpl.
  - destruct (decide (k ∈ [])) as [H|H]; [by apply elem_of_nil in H | done].
  - destruct (decide (k0 = k)) as [->|Hne]; csimpl.
    + rewrite decide_True; [done | left].
    + rewrite IH. destruct (decide (k ∈ d.*1)) as [Hin|Hin].
      * rewrite decide_True; [done | by right].
      * rewrite decide_False; [done |].
        intros [?|?]%elem_of_cons; simplify_eq; done.
Qed.

Lemma NoDup_keys_setdefault_append d k f :
  NoDup (keys d) → NoDup (keys (setdefault_append d k f)).
Proof.
  intros Hd. rewrite keys_setdefault_append. case_decide as Hin; [done |].
  apply NoDup_app. split_and!; [done | | apply NoDup_singleton].
  intros x Hx ->%list_elem_of_singleton. done.
Qed.

Lemma values_setdefault_append_perm d k f :
  concat (values (setdefault_append d k f)) ≡ₚ f :: concat (values d).
Proof.
  unfold values. induction d as [|[k0 l0] d IH]; csimpl; [done |].
  case_decide; csimpl.
  - rewrite <-(assoc_L (++)). symmetry. apply Permutation_middle.
  - rewrite IH. symmetry. apply Permutation_middle.
Qed.

(** An entry of a dictionary with distinct keys is what [getitem] finds. *)
Lemma getitem_entry d k g :
  NoDup (keys d) → (k, g) ∈ d → getitem d k = g.
Proof.
  unfold keys. induction d as [|[k0 l0] d IH]; simpl; intros Hnd Hin.
  - by apply elem_of_nil in Hin.
  - apply NoDup_cons in Hnd as [Hk0 Hnd].
    apply elem_of_cons in Hin as [Heq|Hin]; simplify_eq.
    + by rewrite decide_True.
    + rewrite decide_False; [by apply IH |].
      intros ->. apply Hk0. apply list_elem_of_fmap. by exists (k, g).
Qed.

(** ** The inner loop *)

Lemma key_of_returns kf f k : kf f = Ok k → key_of kf f = k.
Proof. unfold key_of. by intros ->. Qed.

Lemma group_files_build kf files d :
  Forall (λ f, returns (kf f)) files →
  group_files kf files d = Ok (build (key_of kf) files d).
Proof.
  revert d. induction files as [|f files IH]; intros d Hall; simpl; [done |].
  apply Forall_cons in Hall as [[k Hk] Hall].
  rewrite Hk. simpl. rewrite IH by done. unfold build. simpl.
  by rewrite (key_of_returns _ _ _ Hk).
Qed.

Lemma group_files_raise kf l1 p l2 e d :
  Forall (λ f, returns (kf f)) l1 → kf p = Raise e →
  group_files kf (l1 ++ p :: l2) d = Raise e.
Proof.
  revert d. induction l1 as [|f l1 IH]; intros d Hall Hp; simpl.
  - by rewrite Hp.
  - apply Forall_cons in Hall as [[k Hk] Hall]. rewrite Hk. simpl.
    by apply IH.
Qed.

Lemma group_files_inv kf files d d' :
  group_files kf files d = Ok d' →
  Forall (λ f, returns (kf f)) files ∧ d' = build (key_of kf) files d.
Proof.
  revert d. induction files as [|f files IH]; intros d; simpl.
  - intros [= <-]. by split.
  - destruct (kf f) as [k|e] eqn:Hk; simpl; [|done].
    intros [Hall ->]%IH. split.
    + apply Forall_cons. split; [by exists k | done].
    + unfold build. simpl. by rewrite (key_of_returns _ _ _ Hk).
Qed.

Lemma getitem_build key files d k :
  getitem (build key files d) k
  = getitem d k ++ filter (λ f, key f = k) files.
Proof.
  revert d. induction files as [|f files IH]; intros d; simpl.
  - by rewrite app_nil_r.
  - unfold build in *. simpl. rewrite IH, getitem_setdefault_append.
    rewrite filter_cons. repeat case_decide; simplify_eq; try done.
    by rewrite <-(assoc_L (++)).
Qed.

Lemma NoDup_keys_build key files d :
  NoDup (keys d) → NoDup (keys (build key files d)).
Proof.
  revert d. induction files as [|f files IH]; intros d Hd; simpl; [done |].
  apply IH. by apply NoDup_keys_setdefault_append.
Qed.

Lemma elem_of_keys_build key files d k :
  k ∈ keys (build key files d) ↔ k ∈ keys d ∨ ∃ f, f ∈ files ∧ key f = k.
Proof.
  revert d. induction files as [|f files IH]; intros d; simpl.
  - split; [by left |]. intros [?|(f & Hf & _)]; [done |].
    by apply elem_of_nil in Hf.
  - unfold build in *. simpl. rewrite IH, keys_setdefault_append. split.
    + intros [Hk|(f0 & Hf0 & Hk)].
      * case_decide; [by left |].
        apply elem_of_app in Hk as [Hk|Hk%list_elem_of_singleton];
          [by left |].
        right. exists f. split; [left | done].
      * right. exists f0. split; [by right | done].
    + intros [Hk|(f0 & Hf0 & Hk)].
      * left. case_decide; [done |]. apply elem_of_app. by left.
      * apply elem_of_cons in Hf0 as [->|Hf0]; [|right; by exists f0].
        left. subst k. case_decide; [done |].
        apply elem_of_app. right. by apply list_elem_of_singleton.
Qed.

Lemma values_build_perm key files d :
  concat (values (build key files d)) ≡ₚ concat (values d) ++ files.
Proof.
  revert d. induction files as [|f files IH]; intros d; simpl.
  - by rewrite app_nil_r.
  - unfold build in *. simpl. rewrite IH, values_setdefault_append_perm.
    simpl. apply Permutation_middle.
Qed.

(** The groups of a freshly built dictionary: the entry of a key holds the
    files with that key, in input order, and there is at least one. *)
Lemma build_entry key files k g :
  (k, g) ∈ build key files [] →
  g = filter (λ f, key f = k) files ∧ g ≠ [].
Proof.
  intros Hin.
  assert (NoDup (keys (build key files []))) as Hnd
    by (apply NoDup_keys_build; constructor).
  assert (k ∈ keys (build key files [])) as Hk
    by (apply list_elem_of_fmap; by exists (k, g)).
  apply (getitem_entry _ _ _ Hnd) in Hin.
  rewrite getitem_build in Hin. simpl in Hin. subst g. split; [done |].
  apply elem_of_keys_build in Hk as [Hk|(f & Hf & Hkf)];
    [by apply elem_of_nil in Hk |].
  intros Hnil.
  assert (f ∈ filter (λ f, key f = k) files) as Hin
    by (by apply list_elem_of_filter).
  rewrite Hnil in Hin. by apply elem_of_nil in Hin.
Qed.

Lemma build_entry_of key files f :
  f ∈ files →
  (key f, filter (λ f', key f' = key f) files) ∈ build key files [].
Proof.
  intros Hf.
  assert (key f ∈ keys (build key files [])) as Hk
    by (apply elem_of_keys_build; right; by exists f).
  apply list_elem_of_fmap in Hk as ([k g] & Heq & Hin). simpl in Heq. subst k.
  by destruct (build_entry _ _ _ _ Hin) as [<- _].
Qed.

(** ** Flattening *)

Lemma elem_of_concat {A} (x : A) (ls : list (list A)) :
  x ∈ concat ls ↔ ∃ l, l ∈ ls ∧ x ∈ l.
Proof.
  rewrite list_elem_of_In, in_concat.
  by setoid_rewrite list_elem_of_In.
Qed.

Lemma concat_Permutation {A} (ls1 ls2 : list (list A)) :
  ls1 ≡ₚ ls2 → concat ls1 ≡ₚ concat ls2.
Proof.
  induction 1 as [|l ls1 ls2 _ IH|l1 l2 ls|ls1 ls2 ls3 _ IH1 _ IH2]; simpl.
  - done.
  - by rewrite IH.
  - rewrite !(assoc_L (++)). by rewrite (Permutation_app_comm l1 l2).
  - by rewrite IH1.
Qed.

Lemma concat_sublist {A} (ls1 ls2 : list (list A)) :
  ls1 `sublist_of` ls2 → concat ls1 `sublist_of` concat ls2.
Proof.
  induction 1; simpl; [done | | by apply sublist_inserts_l].
  by apply sublist_app.
Qed.

Lemma sublist_concat_elem {A} (l : list A) (ls : list (list A)) :
  l ∈ ls → l `sublist_of` concat ls.
Proof.
  intros (ls1 & ls2 & ->)%list_elem_of_split.
  rewrite concat_app. simpl.
  by apply sublist_inserts_l, sublist_inserts_r.
Qed.

Lemma filter_none {A} (P : A → Prop) `{!∀ x, Decision (P x)} (l : list A) :
  Forall (λ x, ¬ P x) l → filter P l = [].
Proof.
  induction 1 as [|x l Hx _ IH]; [done |].
  by rewrite filter_cons, decide_False.
Qed.

Lemma filter_all {A} (P : A → Prop) `{!∀ x, Decision (P x)} (l : list A) :
  Forall P l → filter P l = l.
Proof.
  induction 1 as [|x l Hx _ IH]; [done |].
  by rewrite filter_cons, decide_True, IH.
Qed.

(** ** Sorting by group length *)

Lemma insert_by_len_perm x l : insert_by_len x l ≡ₚ x :: l.
Proof.
  induction l as [|y l IH]; simpl; [done |].
  case_decide; [|done]. rewrite IH. apply perm_swap.
Qed.

Lemma sorted_by_len_reverse_perm l : sorted_by_len_reverse l ≡ₚ l.
Proof.
  induction l as [|x l IH]; simpl; [done |].
  by rewrite insert_by_len_perm, IH.
Qed.

Lemma insert_by_len_sorted x l :
  StronglySorted longer l → StronglySorted longer (insert_by_len x l).
Proof.
  induction l as [|y l IH]; simpl; intros Hl.
  - repeat constructor.
  - apply StronglySorted_cons in Hl as [Hy Hl]. case_decide as Hlt.
    + apply StronglySorted_cons. split; [|by apply IH].
      rewrite insert_by_len_perm. apply Forall_cons. split; [|done].
      unfold longer. lia.
    + apply StronglySorted_cons. split; [|by apply StronglySorted_cons].
      apply Forall_cons. split; [unfold longer; lia |].
      eapply Forall_impl; [exact Hy |]. unfold longer. intros; lia.
Qed.

Lemma sorted_by_len_reverse_sorted l :
  StronglySorted longer (sorted_by_len_reverse l).
Proof.
  induction l as [|x l IH]; simpl; [constructor |].
  by apply insert_by_len_sorted.
Qed.

(** Inserting in front of a list of no longer groups. *)
Lemma insert_by_len_front x l :
  Forall (longer x) l → insert_by_len x l = x :: l.
Proof.
  destruct l as [|y l]; simpl; [done |].
  intros [Hy _]%Forall_cons. unfold longer in Hy.
  by rewrite decide_False by lia.
Qed.

(** Filtering commutes with insertion into a sorted list, and therefore
    with sorting: the sort never changes the relative order of the groups
    it keeps apart. *)
Lemma filter_insert_by_len (P : list path → Prop) `{!∀ g, Decision (P g)} x l :
  StronglySorted longer l →
  filter P (insert_by_len x l)
  = if decide (P x) then insert_by_len x (filter P l) else filter P l.
Proof.
  induction l as [|y l IH]; simpl; intros Hl.
  - rewrite filter_cons, filter_nil. by case_decide.
  - apply StronglySorted_cons in Hl as [Hy Hl].
    destruct (decide (length x < length y)) as [Hlt|Hge].
    + rewrite !(filter_cons _ y), IH by done.
      destruct (decide (P y)), (decide (P x)); simpl; try done.
      by rewrite decide_True.
    + rewrite filter_cons. destruct (decide (P x)); [|done].
      rewrite insert_by_len_front; [done |].
      apply Forall_forall. intros z [_ Hz]%list_elem_of_filter.
      apply elem_of_cons in Hz as [->|Hz]; [unfold longer; lia |].
      rewrite Forall_forall in Hy. specialize (Hy z Hz).
      unfold longer in *. lia.
Qed.

Lemma filter_sorted_by_len_reverse (P : list path → Prop)
    `{!∀ g, Decision (P g)} l :
  filter P (sorted_by_len_reverse l) = sorted_by_len_reverse (filter P l).
Proof.
  induction l as [|x l IH]; simpl; [done |].
  rewrite filter_insert_by_len by apply sorted_by_len_reverse_sorted.
  rewrite filter_cons, IH. by case_decide.
Qed.

(** Stability: groups of one length come out in the order they went in. *)
Lemma sorted_by_len_reverse_same_length n l :
  Forall (λ g, length g = n) l → sorted_by_len_reverse l = l.
Proof.
  induction 1 as [|x l Hx Hl IH]; simpl; [done |].
  rewrite IH. apply insert_by_len_front.
  eapply Forall_impl; [exact Hl |]. unfold longer. intros; simpl in *. lia.
Qed.

Lemma sorted_by_len_reverse_stable n l :
  filter (λ g, length g = n) (sorted_by_len_reverse l)
  = filter (λ g, length g = n) l.
Proof.
  rewrite filter_sorted_by_len_reverse.
  apply (sorted_by_len_reverse_same_length n).
  apply Forall_forall. by intros g [? _]%list_elem_of_filter.
Qed.

(** In a sorted list the groups with several members come first, so a
    prefix can be cut before or after the one-member groups are dropped. *)
Lemma filter_multi_take n l :
  StronglySorted longer l →
  filter multi (take n l) = take n (filter multi l).
Proof.
  revert n. induction l as [|x l IH]; intros n Hl.
  - by rewrite filter_nil, !take_nil.
  - apply StronglySorted_cons in Hl as [Hx Hl].
    destruct n as [|n]; [by rewrite !take_0 |].
    simpl. rewrite !filter_cons. destruct (decide (multi x)) as [Hm|Hm].
    + simpl. by rewrite IH.
    + rewrite IH by done.
      assert (filter multi l = []) as ->; [|by rewrite take_nil].
      apply filter_none, Forall_forall. intros y Hy.
      rewrite Forall_forall in Hx. specialize (Hx y Hy).
      unfold longer, multi in *. lia.
Qed.

(** ** One stage *)

Lemma next_files_kept d topcount :
  next_files d topcount = concat (kept_groups d topcount).
Proof. reflexivity. Qed.

Lemma kept_groups_budget d (N : Z) :
  (0 ≤ N)%Z →
  kept_groups d (Some N)
  = take (Z.to_nat N) (sorted_by_len_reverse (surviving d)).
Proof.
  intros HN. unfold kept_groups, slice_to, surviving.
  rewrite decide_True by done.
  rewrite filter_multi_take by apply sorted_by_len_reverse_sorted.
  by rewrite filter_sorted_by_len_reverse.
Qed.

Lemma kept_groups_None d :
  kept_groups d None = sorted_by_len_reverse (surviving d).
Proof. unfold kept_groups. simpl. apply filter_sorted_by_len_reverse. Qed.

Lemma slice_to_sublist {A} (l : list A) stop : slice_to l stop `sublist_of` l.
Proof.
  destruct stop as [n|]; simpl; [|done].
  case_decide; apply sublist_take.
Qed.

Lemma kept_groups_sublist d topcount :
  kept_groups d topcount `sublist_of` sorted_by_len_reverse (values d).
Proof.
  unfold kept_groups. etrans; [apply sublist_filter | apply slice_to_sublist].
Qed.

Lemma elem_of_kept_groups d topcount g :
  g ∈ kept_groups d topcount → g ∈ values d ∧ multi g.
Proof.
  unfold kept_groups. intros [Hm Hg]%list_elem_of_filter. split; [|done].
  rewrite <-(sorted_by_len_reverse_perm (values d)).
  eapply elem_of_submseteq; [done |].
  apply sublist_submseteq, slice_to_sublist.
Qed.

(** The next candidates are among the stage's own candidates, counted with
    their multiplicity. *)
Lemma next_files_submseteq key files topcount :
  next_files (build key files []) topcount ⊆+ files.
Proof.
  rewrite next_files_kept.
  trans (concat (sorted_by_len_reverse (values (build key files [])))).
  - apply sublist_submseteq, concat_sublist, kept_groups_sublist.
  - rewrite (concat_Permutation _ _ (sorted_by_len_reverse_perm _)).
    by rewrite values_build_perm.
Qed.

(** Two groups of one stage that share a file are the same group. *)
Lemma build_groups_disjoint key files g1 g2 f :
  g1 ∈ values (build key files []) → g2 ∈ values (build key files []) →
  f ∈ g1 → f ∈ g2 → g1 = g2.
Proof.
  unfold values.
  intros ([k1 g1'] & -> & H1)%list_elem_of_fmap
         ([k2 g2'] & -> & H2)%list_elem_of_fmap; simpl.
  destruct (build_entry _ _ _ _ H1) as [-> _].
  destruct (build_entry _ _ _ _ H2) as [-> _].
  intros [<- _]%list_elem_of_filter [<- _]%list_elem_of_filter. done.
Qed.

(** A file handed on belongs to a group with at least two members. *)
Lemma elem_of_next_files d topcount f :
  f ∈ next_files d topcount → ∃ g, g ∈ values d ∧ multi g ∧ f ∈ g.
Proof.
  rewrite next_files_kept. intros (g & Hg & Hf)%elem_of_concat.
  apply elem_of_kept_groups in Hg as [Hg Hm]. by exists g.
Qed.

(** ** The outer loop, one iteration at a time *)

Lemma run_iterations_snoc its kf name topcount d0 files :
  run_iterations (its ++ [(kf, name, topcount)]) d0 files
  = '(_, fl) ← run_iterations its d0 files;
    d ← group_files kf fl [];
    Ok (d, next_files d topcount).
Proof.
  revert d0 files. induction its as [|[[kf' name'] b'] its IH];
    intros d0 files; simpl.
  - by destruct (group_files kf files []).
  - destruct (group_files kf' files []) as [d1|e]; simpl; [|done]. apply IH.
Qed.

Lemma state_after_0 fs files top : state_after fs files top 0 = Ok ([], files).
Proof. reflexivity. Qed.

Lemma state_after_S fs files top n kf name topcount :
  iterations fs top !! n = Some (kf, name, topcount) →
  state_after fs files top (S n)
  = '(_, fl) ← state_after fs files top n;
    d ← group_files kf fl [];
    Ok (d, next_files d topcount).
Proof.
  intros Hn. unfold state_after. rewrite (take_S_r _ _ _ Hn).
  apply run_iterations_snoc.
Qed.

Lemma state_after_ge fs files top n :
  3 ≤ n → state_after fs files top n = state_after fs files top 3.
Proof. intros Hn. unfold state_after. by rewrite !take_ge by (simpl; lia). Qed.

Lemma filter_duplicate_files_state fs files top :
  filter_duplicate_files fs files top
  = '(duplicates, _) ← state_after fs files top 3;
    Ok (filter multi (values duplicates)).
Proof. reflexivity. Qed.

(** One iteration, seen from its result. *)
Lemma state_after_S_inv fs files top n kf name topcount d' fl' :
  iterations fs top !! n = Some (kf, name, topcount) →
  state_after fs files top (S n) = Ok (d', fl') →
  ∃ d fl, state_after fs files top n = Ok (d, fl)
    ∧ Forall (λ f, returns (kf f)) fl
    ∧ d' = build (key_of kf) fl []
    ∧ fl' = next_files d' topcount.
Proof.
  intros Hn. rewrite (state_after_S _ _ _ _ _ _ _ Hn).
  destruct (state_after fs files top n) as [[d fl]|e]; simpl; [|done].
  destruct (group_files kf fl []) as [d1|e] eqn:Hg; simpl; [|done].
  intros [= <- <-]. apply group_files_inv in Hg as [Hall ->].
  by exists d, fl.
Qed.

(** ** The keying functions on an existing, readable file *)

Lemma read_chunks_S reads inputfile h :
  read_chunks (S reads) inputfile h
  = match take (1024 * 8) inputfile with
    | [] => h
    | _ :: _ =>
        read_chunks reads (drop (1024 * 8) inputfile)
          (SHA256.update h (take (1024 * 8) inputfile))
    end.
Proof. reflexivity. Qed.

(** The loop reaches the sentinel within [length inputfile + 1] reads, and
    the hash object has then been fed the whole file. *)
Lemma read_chunks_enough reads inputfile h :
  length inputfile < reads → read_chunks reads inputfile h = h ++ inputfile.
Proof.
  revert inputfile h. induction reads as [|reads IH]; intros l h Hlen; [lia |].
  rewrite read_chunks_S.
  assert (0 < 1024 * 8) as Hpos by lia. revert Hpos.
  generalize (1024 * 8). intros n Hn.
  destruct (take n l) as [|c cs] eqn:Htake.
  - destruct l as [|x l]; [by rewrite app_nil_r |].
    destruct n; [lia | done].
  - rewrite <-Htake. rewrite IH.
    + unfold SHA256.update. by rewrite <-(assoc_L (++)), take_drop.
    + rewrite length_drop.
      destruct l as [|x l]; [by rewrite take_nil in Htake |]. simpl in *. lia.
Qed.





Lemma getsize_existing fs filename f :
  fs !! filename = Some f →
  getsize fs filename = Ok (PyInt (Z.of_nat (length (content f)))).
Proof. unfold getsize. by intros ->. Qed.

Lemma get_crc_key_readable fs filename f :
  fs !! filename = Some f → readable f = true →
  get_crc_key fs filename
  = Ok (PyInt (Adler32.adler32 (take 1024 (content f)))).
Proof. unfold get_crc_key, open_rb. by intros -> ->. Qed.

Lemma get_hash_key_readable fs filename f :
  fs !! filename = Some f → readable f = true →
  get_hash_key fs filename = Ok (PyBytes (SHA256.sha256 (content f))).
Proof.
  unfold get_hash_key, open_rb. intros -> ->. rewrite bind_Ok.
  rewrite read_chunks_enough by lia. done.
Qed.

Lemma keyfunctions_return fs filename :
  readable_in fs filename →
  returns (getsize fs filename) ∧ returns (get_crc_key fs filename)
  ∧ returns (get_hash_key fs filename).
Proof.
  intros (f & Hf & Hr). split_and!; eexists.
  - by apply getsize_existing.
  - by apply get_crc_key_readable.
  - by apply get_hash_key_readable.
Qed.

(** A key function that returns for a path found the file. *)
Lemma getsize_returns_inv fs filename :
  returns (getsize fs filename) → is_Some (fs !! filename).
Proof. unfold getsize. intros [k Hk]. by destruct (fs !! filename). Qed.

Lemma get_hash_key_returns_inv fs filename k :
  get_hash_key fs filename = Ok k →
  ∃ f, fs !! filename = Some f ∧ readable f = true
       ∧ k = PyBytes (SHA256.sha256 (content f)).
Proof.
  intros Hk. destruct (fs !! filename) as [f|] eqn:Hf.
  - destruct (readable f) eqn:Hr.
    + rewrite (get_hash_key_readable _ _ _ Hf Hr) in Hk.
      injection Hk as <-. by exists f.
    + unfold get_hash_key, open_rb in Hk. by rewrite Hf, Hr in Hk.
  - unfold get_hash_key, open_rb in Hk. by rewrite Hf in Hk.
Qed.

(** ** The loop states of a run *)

Lemma iterations_lookup fs top n :
  n < 3 → ∃ kf name topcount, iterations fs top !! n = Some (kf, name, topcount).
Proof.
  intros Hn. destruct n as [|[|[|n]]]; [| | |lia]; simpl; eauto.
Qed.

(** After at least one iteration, the loop state is a freshly built
    dictionary together with the candidates chosen from it. *)
Lemma state_after_S_shape fs files top n d' fl' :
  state_after fs files top (S n) = Ok (d', fl') →
  ∃ kf name topcount d fl m,
    iterations fs top !! m = Some (kf, name, topcount)
    ∧ state_after fs files top m = Ok (d, fl)
    ∧ (n < 3 → m = n)
    ∧ Forall (λ f, returns (kf f)) fl
    ∧ d' = build (key_of kf) fl []
    ∧ fl' = next_files d' topcount.
Proof.
  destruct (decide (n < 3)) as [Hn|Hn].
  - destruct (iterations_lookup fs top n Hn) as (kf & name & b & Hl).
    intros (d & fl & ? & ? & ? & ?)%(state_after_S_inv _ _ _ _ _ _ _ _ _ Hl).
    by exists kf, name, b, d, fl, n.
  - rewrite state_after_ge by lia.
    destruct (iterations_lookup fs top 2) as (kf & name & b & Hl); [lia |].
    intros (d & fl & ? & ? & ? & ?)%(state_after_S_inv _ _ _ _ _ _ _ _ _ Hl).
    exists kf, name, b, d, fl, 2. split_and!; try done.
Qed.

(** A run that completed, iteration by iteration. *)
Lemma filter_duplicate_files_inv fs files top res :
  filter_duplicate_files fs files top = Ok res →
  ∃ d1 d2 d3,
    d1 = build (key_of (getsize fs)) files []
    ∧ d2 = build (key_of (get_crc_key fs))
             (next_files d1 (if_top top (λ t, t ^ 2)%Z)) []
    ∧ d3 = build (key_of (get_hash_key fs))
             (next_files d2 (if_top top (λ t, t * 2)%Z)) []
    ∧ Forall (λ f, returns (getsize fs f)) files
    ∧ Forall (λ f, returns (get_crc_key fs f))
        (next_files d1 (if_top top (λ t, t ^ 2)%Z))
    ∧ Forall (λ f, returns (get_hash_key fs f))
        (next_files d2 (if_top top (λ t, t * 2)%Z))
    ∧ state_after fs files top 1
      = Ok (d1, next_files d1 (if_top top (λ t, t ^ 2)%Z))
    ∧ state_after fs files top 2
      = Ok (d2, next_files d2 (if_top top (λ t, t * 2)%Z))
    ∧ state_after fs files top 3 = Ok (d3, next_files d3 None)
    ∧ res = surviving d3.
Proof.
  rewrite filter_duplicate_files_state.
  destruct (state_after fs files top 3) as [[d3 fl3]|e] eqn:H3; [|done].
  simpl. intros [= <-].
  pose proof H3 as H3'.
  eapply state_after_S_inv in H3' as (d2 & fl2 & H2 & Hr3 & Hd3 & Hf3);
    [|reflexivity].
  pose proof H2 as H2'.
  eapply state_after_S_inv in H2' as (d1 & fl1 & H1 & Hr2 & Hd2 & Hf2);
    [|reflexivity].
  pose proof H1 as H1'.
  eapply state_after_S_inv in H1' as (d0 & fl0 & H0 & Hr1 & Hd1 & Hf1);
    [|reflexivity].
  rewrite state_after_0 in H0. injection H0 as <- <-. subst.
  eexists _, _, _. split_and!; try reflexivity; done.
Qed.

(** On files that exist and are readable every key function returns, so
    the run completes, whatever [top] is. *)
Lemma filter_duplicate_files_readable fs files top :
  Forall (readable_in fs) files →
  let d1 := build (key_of (getsize fs)) files [] in
  let fl1 := next_files d1 (if_top top (λ t, t ^ 2)%Z) in
  let d2 := build (key_of (get_crc_key fs)) fl1 [] in
  let fl2 := next_files d2 (if_top top (λ t, t * 2)%Z) in
  let d3 := build (key_of (get_hash_key fs)) fl2 [] in
  filter_duplicate_files fs files top = Ok (surviving d3).
Proof.
  intros Hr d1 fl1 d2 fl2 d3.
  assert (∀ fl, fl ⊆+ files → Forall (readable_in fs) fl) as Hsub.
  { intros fl Hfl. apply Forall_forall. intros f Hf.
    rewrite Forall_forall in Hr. apply Hr.
    by eapply elem_of_submseteq. }
  assert (fl1 ⊆+ files) as H1 by apply next_files_submseteq.
  assert (fl2 ⊆+ files) as H2
    by (etrans; [apply next_files_submseteq | exact H1]).
  unfold filter_duplicate_files. simpl.
  rewrite (group_files_build (getsize fs) files []); simpl.
  2:{ eapply Forall_impl; [exact Hr |]. intros f Hf.
      by apply keyfunctions_return. }
  fold d1. fold fl1.
  rewrite (group_files_build (get_crc_key fs) fl1 []); simpl.
  2:{ eapply Forall_impl; [exact (Hsub _ H1) |]. intros f Hf.
      by apply keyfunctions_return. }
  fold d2. fold fl2.
  rewrite (group_files_build (get_hash_key fs) fl2 []); simpl.
  2:{ eapply Forall_impl; [exact (Hsub _ H2) |]. intros f Hf.
      by apply keyfunctions_return. }
  done.
Qed.

(** ** Narrowing *)

(** C7: the candidate list handed to iteration [n + 2] is contained in the
    one iteration [n + 1] received, multiplicities included; hence it is a
    subset of it and not longer.  This holds for every [top]. *)
Theorem C7_monotonic_narrowing fs files top n d fl d' fl' :
  state_after fs files top n = Ok (d, fl) →
  state_after fs files top (S n) = Ok (d', fl') →
  fl' ⊆+ fl ∧ (∀ f, f ∈ fl' → f ∈ fl) ∧ length fl' ≤ length fl.
Proof.
  intros Hn HSn.
  assert (fl' ⊆+ fl) as Hsub.
  { destruct (decide (n < 3)) as [Hlt|Hge].
    - apply state_after_S_shape in HSn
        as (kf & name & b & d0 & fl0 & m & _ & Hm & Hmn & _ & -> & ->).
      rewrite (Hmn Hlt), Hn in Hm. injection Hm as <- <-.
      apply next_files_submseteq.
    - rewrite state_after_ge in Hn, HSn by lia. rewrite Hn in HSn.
      by injection HSn as <- <-. }
  split_and!; [done | | by apply submseteq_length].
  intros f Hf. by eapply elem_of_submseteq.
Qed.

Lemma C7_monotonic_narrowing_witness :
  let fl' := ["a1"; "b"; "a2"; "c1"; "c2"]%string in
  fl' ⊆+ sample_files ∧ (∀ f, f ∈ fl' → f ∈ sample_files)
  ∧ length fl' ≤ length sample_files.
Proof.
  apply (C7_monotonic_narrowing sample_fs sample_files None 0 []
           sample_files
           (build (key_of (getsize sample_fs)) sample_files [])).
  - reflexivity.
  - vm_compute. reflexivity.
Defined.

(** ** Groups with one member *)

(** C6: every returned duplicate set has at least two members, and in
    every iteration (the last one included) a file whose group has exactly
    one member is not among the candidates handed on.  This holds for
    every [top]. *)
Theorem C6_minimum_group_size fs files top :
  (∀ res g, filter_duplicate_files fs files top = Ok res →
            g ∈ res → 2 ≤ length g)
  ∧ (∀ n d fl g f, state_after fs files top (S n) = Ok (d, fl) →
                   g ∈ values d → length g = 1 → f ∈ g → f ∉ fl)
  ∧ (∀ res d fl g, filter_duplicate_files fs files top = Ok res →
                   state_after fs files top 3 = Ok (d, fl) →
                   g ∈ values d → length g = 1 → g ∉ res).
Proof.
  split_and!.
  - intros res g (d1 & d2 & d3 & _ & _ & _ & _ & _ & _ & _ & _ & _ & ->)
      %filter_duplicate_files_inv [Hm _]%list_elem_of_filter.
    exact Hm.
  - intros n d fl g f
      (kf & name & b & d0 & fl0 & m & _ & _ & _ & _ & -> & ->)
      %state_after_S_shape
      Hg Hlen Hf (g' & Hg' & Hm & Hf')%elem_of_next_files.
    rewrite (build_groups_disjoint _ _ _ _ _ Hg Hg' Hf Hf') in Hlen.
    unfold multi in Hm. lia.
  - intros res d fl g
      (d1 & d2 & d3 & _ & _ & _ & _ & _ & _ & _ & _ & H3 & ->)
      %filter_duplicate_files_inv H3' Hg Hlen
      [Hm _]%list_elem_of_filter.
    unfold multi in Hm. lia.
Qed.

Lemma C6_minimum_group_size_witness :
  2 ≤ length ["a1"; "a2"]%string
  ∧ "b"%string ∉ ["a1"; "a2"; "c1"; "c2"]%string.
Proof.
  pose proof (C6_minimum_group_size sample_fs sample_files None)
    as (Hres & Hstage & _).
  split.
  - apply (Hres [["a1"; "a2"]; ["c1"; "c2"]]%string).
    + vm_compute. reflexivity.
    + left.
  - apply (Hstage 1 (build (key_of (get_crc_key sample_fs))
                       ["a1"; "b"; "a2"; "c1"; "c2"]%string [])
             _ ["b"%string]).
    + vm_compute. reflexivity.
    + vm_compute. right. left.
    + reflexivity.
    + left.
Defined.

(** ** The order of discarding and truncating *)



(** ** Truncation budgets *)

Lemma next_files_keeps_largest d (N : Z) :
  (0 ≤ N)%Z → keeps_largest d (Z.to_nat N) (next_files d (Some N)).
Proof.
  intros HN. unfold keeps_largest.
  rewrite next_files_kept, kept_groups_budget by done.
  split_and!; [done | rewrite length_take; lia |].
  intros g g' Hg Hg'.
  pose proof (sorted_by_len_reverse_sorted (surviving d)) as Hs.
  rewrite <-(take_drop (Z.to_nat N)) in Hs.
  exact (StronglySorted_app_1_elem_of _ _ _ _ _ Hs Hg Hg').
Qed.

Lemma next_files_keeps_all d : keeps_all d (next_files d None).
Proof.
  exists (sorted_by_len_reverse (surviving d)).
  split; [apply sorted_by_len_reverse_perm |].
  by rewrite next_files_kept, kept_groups_None.
Qed.

(** C4: for a positive [top], the size iteration hands on the files of at
    most the [top²] largest surviving groups, the checksum iteration those of
    at most the [top * 2] largest, and the hash iteration returns every
    surviving group; for [top] equal to [None] or [0] every iteration keeps
    all surviving groups. *)
Theorem C4_truncation_budgets fs files :
  (∀ t : Z, (0 < t)%Z →
     (iterations fs (Some t)).*2 = [Some (t ^ 2)%Z; Some (t * 2)%Z; None]
     ∧ (∀ d fl, state_after fs files (Some t) 1 = Ok (d, fl) →
                keeps_largest d (Z.to_nat (t ^ 2)) fl)
     ∧ (∀ d fl, state_after fs files (Some t) 2 = Ok (d, fl) →
                keeps_largest d (Z.to_nat (t * 2)) fl))
  ∧ (∀ top res d fl,
       filter_duplicate_files fs files top = Ok res →
       state_after fs files top 3 = Ok (d, fl) →
       res = surviving d ∧ keeps_all d fl)
  ∧ (∀ top, top = None ∨ top = Some 0%Z →
       (iterations fs top).*2 = [None; None; None]
       ∧ ∀ n d fl, state_after fs files top (S n) = Ok (d, fl) →
                   keeps_all d fl).
Proof.
  split_and!.
  - intros t Ht.
    assert (if_top (Some t) (λ t, t ^ 2)%Z = Some (t ^ 2)%Z) as H1
      by (simpl; by rewrite decide_False by lia).
    assert (if_top (Some t) (λ t, t * 2)%Z = Some (t * 2)%Z) as H2
      by (simpl; by rewrite decide_False by lia).
    split_and!.
    + unfold iterations. by rewrite H1, H2.
    + intros d fl Hs.
      eapply state_after_S_inv in Hs as (_ & _ & _ & _ & _ & ->);
        [|reflexivity].
      rewrite H1. apply next_files_keeps_largest. lia.
    + intros d fl Hs.
      eapply state_after_S_inv in Hs as (_ & _ & _ & _ & _ & ->);
        [|reflexivity].
      rewrite H2. apply next_files_keeps_largest. lia.
  - intros top res d fl
      (d1 & d2 & d3 & _ & _ & _ & _ & _ & _ & _ & _ & H3 & ->)
      %filter_duplicate_files_inv H3'.
    rewrite H3 in H3'. injection H3' as <- <-.
    split; [done | apply next_files_keeps_all].
  - intros top Htop.
    assert (∀ f, if_top top f = None) as Hb
      by (intros f; by destruct Htop as [-> | ->]).
    split; [unfold iterations; by rewrite !Hb |].
    intros n d fl
      (kf & name & b & d0 & fl0 & m & Hl & _ & _ & _ & _ & ->)
      %state_after_S_shape.
    assert (b = None) as ->; [|apply next_files_keeps_all].
    unfold iterations in Hl. rewrite !Hb in Hl.
    destruct m as [|[|[|m]]]; simpl in Hl; by simplify_eq.
Qed.

Lemma C4_truncation_budgets_witness :
  keeps_largest (build (key_of (getsize sample_fs)) sample_files []) 1
    ["a1"; "b"; "a2"]%string.
Proof.
  destruct (C4_truncation_budgets sample_fs sample_files) as (Hpos & _ & _).
  destruct (Hpos 1%Z) as (_ & Hsize & _); [lia |].
  apply Hsize. vm_compute. reflexivity.
Defined.

(** ** Two occurrences in a candidate list *)

Lemma sublist_pair_lookup (l : list path) i j p q :
  i < j → l !! i = Some p → l !! j = Some q → [p; q] `sublist_of` l.
Proof.
  intros Hij Hi Hj. rewrite <-(take_drop_middle l i p Hi).
  apply sublist_inserts_l, sublist_skip.
  apply singleton_sublist_l. apply list_elem_of_lookup. exists (j - S i).
  rewrite lookup_drop. by replace (S i + (j - S i)) with j by lia.
Qed.

Lemma twice_lookup (l : list path) i j p q :
  i ≠ j → l !! i = Some p → l !! j = Some q → twice p q l.
Proof.
  intros Hij Hi Hj. destruct (decide (i < j)).
  - left. by eapply sublist_pair_lookup.
  - right. eapply (sublist_pair_lookup l j i); [lia | done..].
Qed.

Lemma filter_sublist_mono {A} (P : A → Prop) `{!∀ x, Decision (P x)}
    (l1 l2 : list A) :
  l1 `sublist_of` l2 → filter P l1 `sublist_of` filter P l2.
Proof.
  induction 1 as [|x l1 l2 _ IH|x l1 l2 _ IH]; [done | |];
    rewrite ?filter_cons; case_decide;
    auto using sublist_skip, sublist_cons.
Qed.

Lemma twice_filter (P : path → Prop) `{!∀ x, Decision (P x)} p q l :
  twice p q l → P p → P q → twice p q (filter P l).
Proof.
  intros [Htw|Htw] Hp Hq; [left | right];
    apply (filter_sublist_mono P) in Htw;
    by rewrite !filter_cons, !decide_True, filter_nil in Htw.
Qed.

Lemma twice_sublist p q l l' :
  l `sublist_of` l' → twice p q l → twice p q l'.
Proof. intros Hl [Htw|Htw]; [left | right]; by etrans. Qed.

Lemma twice_elem_of p q l : twice p q l → p ∈ l ∧ q ∈ l.
Proof.
  intros [Htw|Htw]; apply sublist_submseteq in Htw;
    split; (eapply elem_of_submseteq; [|exact Htw]);
    repeat first [left | right].
Qed.

Lemma twice_multi p q l : twice p q l → multi l.
Proof.
  intros [Htw|Htw]; apply sublist_length in Htw; simpl in Htw; exact Htw.
Qed.

(** Two occurrences with one key lie in the group of that key, which
    therefore survives. *)
Lemma twice_group key fl p q :
  twice p q fl → key p = key q →
  let g := filter (λ f, key f = key p) fl in
  twice p q g ∧ g ∈ surviving (build key fl []).
Proof.
  intros Htw Hkey g.
  assert (twice p q g) as Hg by (by apply twice_filter).
  split; [done |]. apply list_elem_of_filter. split; [by eapply twice_multi |].
  apply list_elem_of_fmap. exists (key p, g). split; [done |].
  apply build_entry_of. by apply twice_elem_of in Htw as [? _].
Qed.

(** Without a budget they are both handed on. *)
Lemma twice_next_files key fl p q :
  twice p q fl → key p = key q →
  twice p q (next_files (build key fl []) None).
Proof.
  intros Htw Hkey. destruct (twice_group key fl p q Htw Hkey) as [Hg Hin].
  eapply twice_sublist; [|exact Hg].
  rewrite next_files_kept, kept_groups_None.
  apply sublist_concat_elem. by rewrite sorted_by_len_reverse_perm.
Qed.

(** ** The group of a file among the groups of a stage *)

Lemma filter_ext_in {A} (P Q : A → Prop) `{!∀ x, Decision (P x)}
    `{!∀ x, Decision (Q x)} (l : list A) :
  (∀ x, x ∈ l → P x ↔ Q x) → filter P l = filter Q l.
Proof.
  induction l as [|x l IH]; intros Hext; [done |].
  rewrite !filter_cons, IH by (intros y Hy; apply Hext; by right).
  destruct (decide (P x)) as [HP|HP], (decide (Q x)) as [HQ|HQ]; try done.
  - destruct HQ. apply Hext; [left | done].
  - destruct HP. apply Hext; [left | done].
Qed.

Lemma filter_fmap {A B} (f : A → B) (P : B → Prop) `{!∀ y, Decision (P y)}
    (l : list A) :
  filter P (f <$> l) = f <$> filter (λ x, P (f x)) l.
Proof.
  induction l as [|x l IH]; [done |].
  rewrite fmap_cons, !filter_cons, IH. by case_decide.
Qed.

Lemma filter_key_entry (d : dict) k g :
  NoDup (keys d) → (k, g) ∈ d → filter (λ e, e.1 = k) d = [(k, g)].
Proof.
  unfold keys. induction d as [|[k0 g0] d IH]; intros Hnd Hin.
  - by apply elem_of_nil in Hin.
  - rewrite fmap_cons in Hnd. apply NoDup_cons in Hnd as [Hk0 Hnd].
    rewrite filter_cons. simpl.
    apply elem_of_cons in Hin as [Heq|Hin]; simplify_eq.
    + rewrite decide_True by done. f_equal.
      apply filter_none, Forall_forall. intros [k' g'] Hin' Heq.
      simpl in Heq. subst k'. apply Hk0.
      apply list_elem_of_fmap. by exists (k0, g').
    + rewrite decide_False; [by apply IH |].
      intros ->. apply Hk0. apply list_elem_of_fmap. by exists (k, g).
Qed.

(** Among the groups of a stage exactly one, the group of its key, holds a
    given candidate. *)
Lemma filter_groups_of_file key fl (P : list path → Prop)
    `{!∀ g, Decision (P g)} p :
  p ∈ fl →
  let g := filter (λ f, key f = key p) fl in
  P g →
  filter (λ g', p ∈ g' ∧ P g') (values (build key fl [])) = [g].
Proof.
  intros Hp g HP. unfold values.
  rewrite filter_fmap.
  rewrite (filter_ext_in _ (λ e, e.1 = key p)).
  - erewrite filter_key_entry; [done | |].
    + apply NoDup_keys_build. constructor.
    + by apply build_entry_of.
  - intros [k g'] Hin. simpl.
    destruct (build_entry _ _ _ _ Hin) as [-> _]. split.
    + by intros [[? _]%list_elem_of_filter _].
    + intros ->. split; [|done]. by apply list_elem_of_filter.
Qed.

(** ** Exhaustive runs *)

(** Files with the same bytes get the same key from each key function. *)
Lemma key_of_same_content fs p q fp fq :
  fs !! p = Some fp → fs !! q = Some fq →
  readable fp = true → readable fq = true →
  content fp = content fq →
  key_of (getsize fs) p = key_of (getsize fs) q
  ∧ key_of (get_crc_key fs) p = key_of (get_crc_key fs) q
  ∧ key_of (get_hash_key fs) p = key_of (get_hash_key fs) q.
Proof.
  intros Hp Hq Hrp Hrq Hc. unfold key_of.
  rewrite (getsize_existing _ _ _ Hp), (getsize_existing _ _ _ Hq).
  rewrite (get_crc_key_readable _ _ _ Hp Hrp), (get_crc_key_readable _ _ _ Hq Hrq).
  rewrite (get_hash_key_readable _ _ _ Hp Hrp),
    (get_hash_key_readable _ _ _ Hq Hrq).
  by rewrite Hc.
Qed.

(** The duplicate set of two occurrences that share the key of each of the
    three iterations, in a run without budgets. *)
Lemma exhaustive_pair fs files p q :
  Forall (readable_in fs) files →
  twice p q files →
  key_of (getsize fs) p = key_of (getsize fs) q →
  key_of (get_crc_key fs) p = key_of (get_crc_key fs) q →
  key_of (get_hash_key fs) p = key_of (get_hash_key fs) q →
  ∃ res fl g,
    filter_duplicate_files fs files None = Ok res
    ∧ fl ⊆+ files
    ∧ g = filter (λ f, key_of (get_hash_key fs) f = key_of (get_hash_key fs) p) fl
    ∧ twice p q g
    ∧ filter (λ g', p ∈ g' ∧ q ∈ g') res = [g].
Proof.
  intros Hr Htw H1 H2 H3.
  pose proof (filter_duplicate_files_readable fs files None Hr) as Hrun.
  simpl in Hrun.
  set (fl1 := next_files (build (key_of (getsize fs)) files []) None) in *.
  set (fl2 := next_files (build (key_of (get_crc_key fs)) fl1 []) None) in *.
  assert (twice p q fl1) as Htw1 by (by apply twice_next_files).
  assert (twice p q fl2) as Htw2 by (by apply twice_next_files).
  destruct (twice_group _ fl2 p q Htw2 H3) as [Hg Hin].
  eexists _, fl2, _. split_and!; [exact Hrun | | reflexivity | exact Hg |].
  - etrans; apply next_files_submseteq.
  - unfold surviving. rewrite list_filter_filter.
    rewrite (filter_ext_in _ (λ g', p ∈ g' ∧ (q ∈ g' ∧ multi g')))
      by (intros; tauto).
    apply (filter_groups_of_file _ fl2 (λ g', q ∈ g' ∧ multi g')).
    + by apply twice_elem_of in Htw2 as [? _].
    + split; [by apply twice_elem_of in Hg as [_ ?] | by eapply twice_multi].
Qed.

(** C1: in a run without [top] on files that are all readable, two
    occurrences of files with identical bytes (at two positions of the input)
    lie together in exactly one of the returned duplicate sets. *)
Theorem C1_exhaustive_grouping fs files i j p q fp fq :
  Forall (readable_in fs) files →
  i ≠ j → files !! i = Some p → files !! j = Some q →
  fs !! p = Some fp → fs !! q = Some fq →
  content fp = content fq →
  ∃ res g, filter_duplicate_files fs files None = Ok res
           ∧ filter (λ g', p ∈ g' ∧ q ∈ g') res = [g].
Proof.
  intros Hr Hij Hi Hj Hp Hq Hc.
  assert (readable fp = true ∧ readable fq = true) as [Hrp Hrq].
  { rewrite Forall_forall in Hr. split.
    - destruct (Hr p) as (f & Hf & ?); [by eapply list_elem_of_lookup_2 |].
      by simplify_eq.
    - destruct (Hr q) as (f & Hf & ?); [by eapply list_elem_of_lookup_2 |].
      by simplify_eq. }
  destruct (key_of_same_content fs p q fp fq) as (H1 & H2 & H3); try done.
  destruct (exhaustive_pair fs files p q) as (res & fl & g & Hrun & _ & _ & _ & Hg);
    try done.
  - by eapply twice_lookup.
  - by exists res, g.
Qed.

Lemma C1_exhaustive_grouping_witness :
  ∃ res g,
    filter_duplicate_files sample_fs sample_files None = Ok res
    ∧ filter (λ g', "a1"%string ∈ g' ∧ "a2"%string ∈ g') res = [g].
Proof.
  apply (C1_exhaustive_grouping sample_fs sample_files 1 4 _ _
           (bytes_file "AAAA") (bytes_file "AAAA")).
  - unfold sample_files, readable_in.
    repeat (apply Forall_cons; split; [eexists; split; reflexivity |]).
    apply Forall_nil_2.
  - lia.
  - reflexivity.
  - reflexivity.
  - reflexivity.
  - reflexivity.
  - reflexivity.
Defined.

(** ** A path listed twice *)

Lemma filter_submseteq_mono {A} (P : A → Prop) `{!∀ x, Decision (P x)}
    (l1 l2 : list A) :
  l1 ⊆+ l2 → filter P l1 ⊆+ filter P l2.
Proof.
  intros [k Hk]%submseteq_Permutation.
  rewrite Hk, filter_app. by apply submseteq_inserts_r.
Qed.





(** ** Failing reads *)

Lemma state_after_raise fs files top n m e :
  state_after fs files top n = Raise e → n ≤ m →
  state_after fs files top m = Raise e.
Proof.
  intros Hn. induction 1 as [|m Hle IH]; [done |].
  destruct (decide (m < 3)) as [Hm|Hm].
  - destruct (iterations_lookup fs top m Hm) as (kf & name & b & Hl).
    by rewrite (state_after_S _ _ _ _ _ _ _ Hl), IH.
  - rewrite state_after_ge by lia. by rewrite state_after_ge in IH by lia.
Qed.

(** C3, as the code has it: when the key function of an iteration raises
    on one of the candidates of that iteration, the exception of the first
    such candidate leaves [filter_duplicate_files]: no result is returned,
    the file is not dropped and the remaining candidates are not processed. *)
Theorem C3_read_error_propagates fs files top n kf name topcount d fl l1 p l2 e :
  iterations fs top !! n = Some (kf, name, topcount) →
  state_after fs files top n = Ok (d, fl) →
  fl = l1 ++ p :: l2 →
  Forall (λ f, returns (kf f)) l1 →
  kf p = Raise e →
  filter_duplicate_files fs files top = Raise e.
Proof.
  intros Hl Hn -> Hl1 Hp.
  assert (state_after fs files top (S n) = Raise e) as HSn.
  { rewrite (state_after_S _ _ _ _ _ _ _ Hl), Hn. simpl.
    by rewrite (group_files_raise _ _ _ _ e). }
  rewrite filter_duplicate_files_state.
  assert (n < 3) as Hlt by (apply lookup_lt_Some in Hl; simpl in Hl; lia).
  by rewrite (state_after_raise _ _ _ (S n) 3 e HSn) by lia.
Qed.

Lemma C3_read_error_propagates_witness :
  filter_duplicate_files sample_fs ["a1"; "locked"; "a2"]%string None
  = Raise (PermissionError "locked").
Proof.
  apply (C3_read_error_propagates sample_fs _ None 1 (get_crc_key sample_fs)
           "By CRC "%string None
           (build (key_of (getsize sample_fs))
              ["a1"; "locked"; "a2"]%string [])
           ["a1"; "locked"; "a2"]%string ["a1"%string] "locked"%string
           ["a2"%string]).
  - reflexivity.
  - vm_compute. reflexivity.
  - reflexivity.
  - apply Forall_cons. split; [eexists; reflexivity | apply Forall_nil_2].
  - reflexivity.
Defined.

(** The claim C3 fails: a file that may not be opened, or that no longer
    exists, makes the whole run raise instead of being dropped. *)
Lemma C3_unreadable_file_aborts :
  filter_duplicate_files sample_fs ["a1"; "locked"; "a2"]%string None
  = Raise (PermissionError "locked")
  ∧ filter_duplicate_files sample_fs ["a1"; "vanished"; "a2"]%string None
    = Raise (FileNotFoundError "vanished")
  ∧ ¬ ∃ res,
      filter_duplicate_files sample_fs ["a1"; "locked"; "a2"]%string None
      = Ok res.
Proof.
  split_and!; [vm_compute; reflexivity | vm_compute; reflexivity |].
  intros [res Hres]. vm_compute in Hres. discriminate.
Qed.

(** ** A negative [top] *)

(** The claim C5 fails: with [-fast -top -1] the arguments are accepted
    and the three iterations run and return a result. *)
Lemma C5_negative_top_runs :
  parse_arguments negative_top_args = negative_top_args
  ∧ main_duplicates pairs_fs negative_top_args
      ["x1"; "y1"; "z1"; "x2"; "y2"; "z2"]%string
    = Ok [["x1"; "x2"]%string].
Proof. split; [reflexivity | vm_compute; reflexivity]. Qed.

(** C5, as the code has it: a negative [top] is not rejected.
    [parse_arguments] leaves it as it is, the pipeline is started with it
    in fast mode, the budgets are [top²] and the negative [top * 2] (a slice
    that drops the last groups), and on readable files the run returns. *)
Theorem C5_negative_top_accepted fs parsed FILES (t : Z) :
  top parsed = Some t → (t < 0)%Z → show_all parsed = false →
  Forall (readable_in fs) FILES →
  parse_arguments parsed = parsed
  ∧ main_duplicates fs parsed FILES
    = filter_duplicate_files fs FILES (if fast parsed then Some t else None)
  ∧ (iterations fs (Some t)).*2 = [Some (t ^ 2)%Z; Some (t * 2)%Z; None]
  ∧ ∃ res, main_duplicates fs parsed FILES = Ok res.
Proof.
  intros Htop Ht Hall Hr.
  assert (parse_arguments parsed = parsed) as Hparse.
  { unfold parse_arguments. rewrite Hall, Htop. simpl.
    rewrite bool_decide_eq_false_2; [done |]. intros [=]. lia. }
  assert (main_duplicates fs parsed FILES
          = filter_duplicate_files fs FILES
              (if fast parsed then Some t else None)) as Hmain.
  { unfold main_duplicates. by rewrite Hparse, Htop. }
  split_and!; [done | done | |].
  - unfold iterations. simpl. by rewrite !decide_False by lia.
  - rewrite Hmain, filter_duplicate_files_readable by done. by eexists.
Qed.

Lemma C5_negative_top_accepted_witness :
  ∃ res, main_duplicates pairs_fs negative_top_args
           ["x1"; "y1"; "z1"; "x2"; "y2"; "z2"]%string = Ok res.
Proof.
  apply (C5_negative_top_accepted pairs_fs negative_top_args
           ["x1"; "y1"; "z1"; "x2"; "y2"; "z2"]%string (-1)%Z).
  - reflexivity.
  - lia.
  - reflexivity.
  - unfold readable_in.
    repeat (apply Forall_cons; split; [eexists; split; reflexivity |]).
    apply Forall_nil_2.
Defined.

(** ** The three keys *)








(** ** Digests and contents *)



(** *** Counting digests *)













(** * Further properties of the pipeline *)

(** ** The candidates that survive a stage *)

Lemma filter_impl_sublist {A} (P Q : A → Prop) `{!∀ x, Decision (P x)}
    `{!∀ x, Decision (Q x)} (l : list A) :
  (∀ x, x ∈ l → P x → Q x) → filter P l `sublist_of` filter Q l.
Proof.
  induction l as [|x l IH]; intros Himp; [done |].
  rewrite !filter_cons.
  assert (filter P l `sublist_of` filter Q l) as Hl
    by (apply IH; intros y Hy; apply Himp; by right).
  destruct (decide (P x)) as [HP|HP], (decide (Q x)) as [HQ|HQ].
  - by apply sublist_skip.
  - destruct HQ. apply Himp; [left | done].
  - by apply sublist_cons.
  - done.
Qed.

Lemma filter_concat {A} (P : A → Prop) `{!∀ x, Decision (P x)}
    (ls : list (list A)) :
  filter P (concat ls) = concat (filter P <$> ls).
Proof.
  induction ls as [|l ls IH]; [done |].
  simpl. by rewrite filter_app, IH.
Qed.

(** The groups of a freshly built dictionary, by their keys. *)
Lemma values_build_groups key fl :
  values (build key fl [])
  = (λ k, filter (λ f, key f = k) fl) <$> keys (build key fl []).
Proof.
  unfold values, keys. rewrite <-list_fmap_compose.
  apply Forall_fmap_ext, Forall_forall. intros [k g] Hin. simpl.
  by destruct (build_entry _ _ _ _ Hin) as [-> _].
Qed.

Lemma concat_filter_multi_groups key fl (ks : list pyval) :
  concat (filter multi ((λ k, filter (λ f, key f = k) fl) <$> ks))
  = filter (λ f, multi (filter (λ f', key f' = key f) fl))
      (concat ((λ k, filter (λ f, key f = k) fl) <$> ks)).
Proof.
  induction ks as [|k ks IH]; [done |].
  rewrite fmap_cons, filter_cons. simpl concat at 2.
  rewrite filter_app, <-IH.
  destruct (decide (multi (filter (λ f, key f = k) fl))) as [Hm|Hm].
  - simpl. f_equal. symmetry. apply filter_all, Forall_forall.
    by intros f [-> _]%list_elem_of_filter.
  - assert (filter (λ f, multi (filter (λ f', key f' = key f) fl))
              (filter (λ f, key f = k) fl) = []) as ->; [|done].
    apply filter_none, Forall_forall.
    by intros f [-> _]%list_elem_of_filter.
Qed.

Lemma concat_surviving_perm key fl :
  concat (surviving (build key fl [])) ≡ₚ survivors key fl.
Proof.
  unfold surviving, survivors.
  rewrite values_build_groups, concat_filter_multi_groups.
  apply filter_Permutation.
  rewrite <-values_build_groups, values_build_perm. done.
Qed.

(** Without a budget a stage hands on exactly the candidates that share
    their key with another one. *)
Lemma next_files_None_perm key fl :
  next_files (build key fl []) None ≡ₚ survivors key fl.
Proof.
  rewrite next_files_kept, kept_groups_None.
  rewrite (concat_Permutation _ _ (sorted_by_len_reverse_perm _)).
  apply concat_surviving_perm.
Qed.

(** With a budget it hands on some of them. *)
Lemma next_files_submseteq_survivors key fl topcount :
  next_files (build key fl []) topcount ⊆+ survivors key fl.
Proof.
  rewrite <-concat_surviving_perm, next_files_kept.
  trans (concat (filter multi
                   (sorted_by_len_reverse (values (build key fl []))))).
  - apply sublist_submseteq, concat_sublist. unfold kept_groups.
    apply filter_sublist_mono, slice_to_sublist.
  - apply Permutation_submseteq, concat_Permutation. unfold surviving.
    apply filter_Permutation, sorted_by_len_reverse_perm.
Qed.

Lemma survivors_mono key fl fl' :
  fl' ⊆+ fl → survivors key fl' ⊆+ survivors key fl.
Proof.
  intros Hsub. unfold survivors.
  trans (filter (λ f, multi (filter (λ f', key f' = key f) fl)) fl').
  - apply sublist_submseteq, filter_impl_sublist. intros f _.
    unfold multi. intros Hm.
    eapply Nat.lt_le_trans; [exact Hm |].
    by apply submseteq_length, filter_submseteq_mono.
  - by apply filter_submseteq_mono.
Qed.

Lemma survivors_perm key fl fl' :
  fl ≡ₚ fl' → survivors key fl ≡ₚ survivors key fl'.
Proof.
  intros Hp. apply (anti_symm submseteq); apply survivors_mono;
    by apply Permutation_submseteq.
Qed.

Lemma survivors_submseteq key fl : survivors key fl ⊆+ fl.
Proof. apply sublist_submseteq, sublist_filter. Qed.

Lemma elem_of_survivors key fl f :
  f ∈ survivors key fl
  ↔ f ∈ fl ∧ 2 ≤ length (filter (λ f', key f' = key f) fl).
Proof. unfold survivors. rewrite list_elem_of_filter. unfold multi. tauto. Qed.

(** ** What a completed run returns *)

(** A completed run, by the candidates of its iterations. *)
Lemma filter_duplicate_files_candidates fs files top res :
  filter_duplicate_files fs files top = Ok res →
  ∃ fl1 fl2,
    Forall (λ f, returns (getsize fs f)) files
    ∧ Forall (λ f, returns (get_crc_key fs f)) fl1
    ∧ Forall (λ f, returns (get_hash_key fs f)) fl2
    ∧ fl1 = next_files (build (key_of (getsize fs)) files [])
              (if_top top (λ t, t ^ 2)%Z)
    ∧ fl2 = next_files (build (key_of (get_crc_key fs)) fl1 [])
              (if_top top (λ t, t * 2)%Z)
    ∧ res = surviving (build (key_of (get_hash_key fs)) fl2 [])
    ∧ fl1 ⊆+ survivors (key_of (getsize fs)) files
    ∧ fl2 ⊆+ survivors (key_of (get_crc_key fs)) fl1
    ∧ concat res ≡ₚ survivors (key_of (get_hash_key fs)) fl2.
Proof.
  intros (d1 & d2 & d3 & -> & -> & -> & Hr1 & Hr2 & Hr3 & _ & _ & _ & ->)
    %filter_duplicate_files_inv.
  eexists _, _. split_and!; try done.
  - apply next_files_submseteq_survivors.
  - apply next_files_submseteq_survivors.
  - apply concat_surviving_perm.
Qed.

(** The returned sets are part of the input, none is empty, and the size
    of every listed file was found. *)
Lemma result_within_input_aux fs files top res :
  filter_duplicate_files fs files top = Ok res →
  concat res ⊆+ files
  ∧ Forall (λ g, g ≠ []) res
  ∧ Forall (λ f, returns (getsize fs f)) files.
Proof.
  intros (fl1 & fl2 & Hr1 & _ & _ & _ & _ & Hres & H1 & H2 & H3)
    %filter_duplicate_files_candidates.
  split_and!; [| |done].
  - rewrite H3. etrans; [apply survivors_submseteq |].
    etrans; [exact H2 |]. etrans; [apply survivors_submseteq |].
    etrans; [exact H1 |]. apply survivors_submseteq.
  - apply Forall_forall. intros g Hg ->. rewrite Hres in Hg.
    apply list_elem_of_filter in Hg as [Hm _]. unfold multi in Hm.
    simpl in Hm. lia.
Qed.

(** X1: for every [top], the returned sets taken together are part of the
    input, multiplicities included: no path is invented, and no path is
    reported more often than it is listed. *)
Theorem result_within_input fs files top res :
  filter_duplicate_files fs files top = Ok res →
  concat res ⊆+ files
  ∧ (∀ g p, g ∈ res → p ∈ g → p ∈ files)
  ∧ length (concat res) ≤ length files.
Proof.
  intros (fl1 & fl2 & _ & _ & _ & _ & _ & _ & H1 & H2 & H3)
    %filter_duplicate_files_candidates.
  assert (concat res ⊆+ files) as Hsub.
  { rewrite H3. etrans; [apply survivors_submseteq |].
    etrans; [exact H2 |]. etrans; [apply survivors_submseteq |].
    etrans; [exact H1 |]. apply survivors_submseteq. }
  split_and!; [done | | by apply submseteq_length].
  intros g p Hg Hp. eapply elem_of_submseteq; [|exact Hsub].
  apply elem_of_concat. by exists g.
Qed.

Lemma result_within_input_witness :
  concat [["a1"; "a2"]; ["c1"; "c2"]]%string ⊆+ sample_files
  ∧ (∀ g p, g ∈ [["a1"; "a2"]; ["c1"; "c2"]]%string → p ∈ g →
            p ∈ sample_files)
  ∧ length (concat [["a1"; "a2"]; ["c1"; "c2"]]%string) ≤ length sample_files.
Proof.
  apply (result_within_input sample_fs sample_files None).
  vm_compute. reflexivity.
Defined.

Lemma NoDup_values_build key fl : NoDup (values (build key fl [])).
Proof.
  rewrite values_build_groups.
  apply NoDup_fmap_2_strong; [|apply NoDup_keys_build; constructor].
  intros k1 k2 Hk1 _ Heq.
  apply elem_of_keys_build in Hk1 as [Hk1|(f & Hf & Hkf)];
    [by apply elem_of_nil in Hk1 |].
  assert (f ∈ filter (λ f, key f = k1) fl) as Hin
    by (by apply list_elem_of_filter).
  rewrite Heq in Hin. apply list_elem_of_filter in Hin as [Hk2 _]. congruence.
Qed.

(** X2: for every [top], files reported in two different sets have
    different SHA-256 digests, hence different bytes: one content is never
    split over two returned sets. *)
Theorem distinct_sets_distinct_content fs files top res i j g1 g2 p q fp fq :
  filter_duplicate_files fs files top = Ok res →
  res !! i = Some g1 → res !! j = Some g2 → i ≠ j →
  p ∈ g1 → q ∈ g2 →
  fs !! p = Some fp → fs !! q = Some fq →
  SHA256.sha256 (content fp) ≠ SHA256.sha256 (content fq)
  ∧ content fp ≠ content fq ∧ p ≠ q.
Proof.
  intros (fl1 & fl2 & _ & _ & Hr3 & _ & _ & -> & _)
    %filter_duplicate_files_candidates Hi Hj Hij Hp Hq Hfp Hfq.
  set (key := key_of (get_hash_key fs)) in *.
  assert (NoDup (surviving (build key fl2 []))) as Hnd
    by apply NoDup_filter, NoDup_values_build.
  assert (g1 ≠ g2) as Hne.
  { intros ->. apply Hij. by eapply NoDup_lookup. }
  assert (∀ g f, g ∈ surviving (build key fl2 []) → f ∈ g →
            g = filter (λ f', key f' = key f) fl2 ∧ f ∈ fl2) as Hgroup.
  { intros g f [_ Hg]%list_elem_of_filter Hf.
    apply list_elem_of_fmap in Hg as ([k g'] & -> & Hin). simpl in *.
    destruct (build_entry _ _ _ _ Hin) as [-> _].
    by apply list_elem_of_filter in Hf as [-> ?]. }
  destruct (Hgroup g1 p) as [Hg1 Hp2];
    [by eapply list_elem_of_lookup_2 | done |].
  destruct (Hgroup g2 q) as [Hg2 Hq2];
    [by eapply list_elem_of_lookup_2 | done |].
  assert (key p ≠ key q) as Hkey by (intros Heq; rewrite Heq in Hg1; congruence).
  rewrite Forall_forall in Hr3.
  destruct (Hr3 p Hp2) as [kp Hkp], (Hr3 q Hq2) as [kq Hkq].
  unfold key in Hkey.
  rewrite (key_of_returns _ _ _ Hkp), (key_of_returns _ _ _ Hkq) in Hkey.
  apply get_hash_key_returns_inv in Hkp as (fp' & Hfp' & _ & ->).
  apply get_hash_key_returns_inv in Hkq as (fq' & Hfq' & _ & ->).
  simplify_eq.
  assert (SHA256.sha256 (content fp) ≠ SHA256.sha256 (content fq)) as Hsha
    by congruence.
  split_and!; [done | congruence | congruence].
Qed.

Lemma distinct_sets_distinct_content_witness :
  SHA256.sha256 (ascii_bytes "AAAA") ≠ SHA256.sha256 (ascii_bytes "CC")
  ∧ ascii_bytes "AAAA" ≠ ascii_bytes "CC" ∧ "a1"%string ≠ "c2"%string.
Proof.
  apply (distinct_sets_distinct_content sample_fs sample_files None
           [["a1"; "a2"]; ["c1"; "c2"]]%string 0 1
           ["a1"; "a2"]%string ["c1"; "c2"]%string "a1"%string "c2"%string
           (bytes_file "AAAA") (bytes_file "CC")).
  - vm_compute. reflexivity.
  - reflexivity.
  - reflexivity.
  - lia.
  - left.
  - right. left.
  - reflexivity.
  - reflexivity.
Defined.

Lemma length_filter_same_key kf fl files p :
  Forall (λ f, returns (kf f)) fl → p ∈ fl → fl ⊆+ files →
  length (filter (λ f, key_of kf f = key_of kf p) fl)
  ≤ length (filter (λ f, kf f = kf p) files).
Proof.
  intros Hr Hp Hsub. apply submseteq_length.
  trans (filter (λ f, kf f = kf p) fl); [|by apply filter_submseteq_mono].
  apply sublist_submseteq, filter_impl_sublist. intros f Hf Hkey.
  rewrite Forall_forall in Hr.
  destruct (Hr f Hf) as [k Hk], (Hr p Hp) as [k' Hk'].
  rewrite (key_of_returns _ _ _ Hk), (key_of_returns _ _ _ Hk') in Hkey.
  congruence.
Qed.

(** X3: for every [top], a reported file has a partner in every
    iteration: at least two listed occurrences have its size, at least two
    its checksum and at least two its digest.  A file that is alone with its
    size, checksum or digest is never reported. *)
Theorem reported_file_has_partners fs files top res g p :
  filter_duplicate_files fs files top = Ok res →
  g ∈ res → p ∈ g →
  2 ≤ length (filter (λ f, getsize fs f = getsize fs p) files)
  ∧ 2 ≤ length (filter (λ f, get_crc_key fs f = get_crc_key fs p) files)
  ∧ 2 ≤ length (filter (λ f, get_hash_key fs f = get_hash_key fs p) files).
Proof.
  intros (fl1 & fl2 & Hr1 & Hr2 & Hr3 & _ & _ & _ & H1 & H2 & H3)
    %filter_duplicate_files_candidates Hg Hp.
  assert (p ∈ concat res) as Hin by (apply elem_of_concat; by exists g).
  rewrite H3 in Hin. apply elem_of_survivors in Hin as [Hp2 Hn3].
  pose proof (elem_of_submseteq _ _ _ Hp2 H2) as Hin2.
  apply elem_of_survivors in Hin2 as [Hp1 Hn2].
  pose proof (elem_of_submseteq _ _ _ Hp1 H1) as Hin1.
  apply elem_of_survivors in Hin1 as [Hp0 Hn1].
  assert (fl1 ⊆+ files) as Hs1
    by (etrans; [exact H1 | apply survivors_submseteq]).
  assert (fl2 ⊆+ files) as Hs2
    by (etrans; [exact H2 |]; etrans; [apply survivors_submseteq | done]).
  split_and!.
  - etrans; [exact Hn1 |]. by apply length_filter_same_key.
  - etrans; [exact Hn2 |]. by apply length_filter_same_key.
  - etrans; [exact Hn3 |]. by apply length_filter_same_key.
Qed.

Lemma reported_file_has_partners_witness :
  2 ≤ length (filter (λ f, getsize sample_fs f = getsize sample_fs "a1")
                sample_files)
  ∧ 2 ≤ length (filter (λ f, get_crc_key sample_fs f
                             = get_crc_key sample_fs "a1") sample_files)
  ∧ 2 ≤ length (filter (λ f, get_hash_key sample_fs f
                             = get_hash_key sample_fs "a1") sample_files).
Proof.
  apply (reported_file_has_partners sample_fs sample_files None
           [["a1"; "a2"]; ["c1"; "c2"]]%string ["a1"; "a2"]%string).
  - vm_compute. reflexivity.
  - left.
  - left.
Defined.

(** ** Fast mode *)

(** With a budget of [N] groups, the candidates handed on have at most [N]
    different keys. *)
Lemma next_files_budget_keys key fl (N : Z) :
  (0 ≤ N)%Z →
  ∃ ks : list pyval,
    (Z.of_nat (length ks) ≤ N)%Z
    ∧ ∀ f, f ∈ next_files (build key fl []) (Some N) → key f ∈ ks.
Proof.
  intros HN.
  exists ((λ g, key (default ""%string (head g)))
            <$> kept_groups (build key fl []) (Some N)).
  split.
  - rewrite length_fmap, kept_groups_budget, length_take by done. lia.
  - rewrite next_files_kept. intros f (g & Hg & Hf)%elem_of_concat.
    apply list_elem_of_fmap. exists g. split; [|done].
    apply elem_of_kept_groups in Hg as [Hg _].
    apply list_elem_of_fmap in Hg as ([k g'] & -> & Hin). simpl in *.
    destruct (build_entry _ _ _ _ Hin) as [-> Hne].
    apply list_elem_of_filter in Hf as [-> _].
    destruct (filter _ fl) as [|f0 l] eqn:Hfl; [done |]. simpl.
    assert (f0 ∈ filter (λ f', key f' = k) fl) as Hf0
      by (rewrite Hfl; left).
    by apply list_elem_of_filter in Hf0 as [-> _].
Qed.

(** X4: with a positive [top], the files of the returned sets have at most
    [top²] different sizes and at most [top * 2] different checksums (with
    [top = 1] they all have one size). *)
Theorem fast_mode_bounds fs files (t : Z) res :
  (0 < t)%Z →
  filter_duplicate_files fs files (Some t) = Ok res →
  ∃ sizes crcs : list pyval,
    (Z.of_nat (length sizes) ≤ t ^ 2)%Z
    ∧ (Z.of_nat (length crcs) ≤ t * 2)%Z
    ∧ ∀ g p, g ∈ res → p ∈ g →
        getsize fs p ∈ Ok <$> sizes ∧ get_crc_key fs p ∈ Ok <$> crcs.
Proof.
  intros Ht (fl1 & fl2 & Hr1 & Hr2 & _ & Hfl1 & Hfl2 & _ & H1 & H2 & H3)
    %filter_duplicate_files_candidates.
  simpl in Hfl1, Hfl2. rewrite decide_False in Hfl1, Hfl2 by lia.
  destruct (next_files_budget_keys (key_of (getsize fs)) files (t ^ 2)%Z)
    as (sizes & Hns & Hsizes); [lia |].
  destruct (next_files_budget_keys (key_of (get_crc_key fs)) fl1 (t * 2)%Z)
    as (crcs & Hnc & Hcrcs); [lia |].
  rewrite <-Hfl1 in Hsizes. rewrite <-Hfl2 in Hcrcs.
  exists sizes, crcs. split_and!; [done | done |].
  intros g p Hg Hp.
  assert (p ∈ fl2) as Hp2.
  { eapply elem_of_submseteq; [|apply survivors_submseteq]. rewrite <-H3.
    apply elem_of_concat. by exists g. }
  assert (p ∈ fl1) as Hp1.
  { eapply elem_of_submseteq; [|apply survivors_submseteq].
    by eapply elem_of_submseteq. }
  assert (p ∈ files) as Hp0.
  { eapply elem_of_submseteq; [|apply survivors_submseteq].
    by eapply elem_of_submseteq. }
  rewrite Forall_forall in Hr1, Hr2.
  destruct (Hr1 p Hp0) as [k1 Hk1], (Hr2 p Hp1) as [k2 Hk2].
  specialize (Hsizes p Hp1). specialize (Hcrcs p Hp2).
  rewrite (key_of_returns _ _ _ Hk1) in Hsizes.
  rewrite (key_of_returns _ _ _ Hk2) in Hcrcs.
  rewrite Hk1, Hk2. split; by apply list_elem_of_fmap_2.
Qed.

Lemma fast_mode_bounds_witness :
  ∃ sizes crcs : list pyval,
    (Z.of_nat (length sizes) ≤ 1 ^ 2)%Z
    ∧ (Z.of_nat (length crcs) ≤ 1 * 2)%Z
    ∧ ∀ g p, g ∈ [["a1"; "a2"]%string] → p ∈ g →
        getsize sample_fs p ∈ Ok <$> sizes
        ∧ get_crc_key sample_fs p ∈ Ok <$> crcs.
Proof.
  apply (fast_mode_bounds sample_fs sample_files 1%Z); [lia |].
  vm_compute. reflexivity.
Defined.

(** X5: a run with [top] only leaves things out.  When the run without
    [top] returns as well, every set returned with [top] is contained in a
    set returned without. *)
Theorem fast_mode_under_reports fs files top res res_all :
  filter_duplicate_files fs files top = Ok res →
  filter_duplicate_files fs files None = Ok res_all →
  ∀ g, g ∈ res → ∃ g', g' ∈ res_all ∧ g ⊆+ g'.
Proof.
  intros (fl1 & fl2 & _ & _ & _ & _ & _ & -> & H1 & H2 & _)
    %filter_duplicate_files_candidates
    (fa1 & fa2 & _ & _ & _ & Hfa1 & Hfa2 & -> & _)
    %filter_duplicate_files_candidates g Hg.
  simpl in Hfa1, Hfa2.
  assert (fl1 ⊆+ fa1) as Hs1.
  { rewrite Hfa1, next_files_None_perm. exact H1. }
  assert (fl2 ⊆+ fa2) as Hs2.
  { rewrite Hfa2, next_files_None_perm.
    etrans; [exact H2 | by apply survivors_mono]. }
  set (key := key_of (get_hash_key fs)) in *.
  apply list_elem_of_filter in Hg as [Hm Hg].
  apply list_elem_of_fmap in Hg as ([k g'] & -> & Hin). simpl in *.
  destruct (build_entry _ _ _ _ Hin) as [-> Hne].
  destruct (filter (λ f, key f = k) fl2) as [|f l] eqn:Hfl; [done |].
  assert (f ∈ filter (λ f, key f = k) fl2) as Hf by (rewrite Hfl; left).
  apply list_elem_of_filter in Hf as [<- Hf]. rewrite <-Hfl in *.
  assert (filter (λ f', key f' = key f) fl2
          ⊆+ filter (λ f', key f' = key f) fa2) as Hsub
    by (by apply filter_submseteq_mono).
  exists (filter (λ f', key f' = key f) fa2). split; [|done].
  apply list_elem_of_filter. split.
  - unfold multi in *. apply submseteq_length in Hsub. lia.
  - apply list_elem_of_fmap. eexists (key f, _). split; [done |].
    apply build_entry_of. by eapply elem_of_submseteq.
Qed.

Lemma fast_mode_under_reports_witness :
  ∃ g', g' ∈ [["a1"; "a2"]; ["c1"; "c2"]]%string
        ∧ ["a1"; "a2"]%string ⊆+ g'.
Proof.
  apply (fast_mode_under_reports sample_fs sample_files (Some 1%Z)
           [["a1"; "a2"]%string]).
  - vm_compute. reflexivity.
  - vm_compute. reflexivity.
  - left.
Defined.

(** ** Runs that return *)

(** A run returns as soon as each key function returns on the candidates
    of its own iteration. *)
Lemma filter_duplicate_files_returns fs files top :
  let fl1 := next_files (build (key_of (getsize fs)) files [])
               (if_top top (λ t, t ^ 2)%Z) in
  let fl2 := next_files (build (key_of (get_crc_key fs)) fl1 [])
               (if_top top (λ t, t * 2)%Z) in
  Forall (λ f, returns (getsize fs f)) files →
  Forall (λ f, returns (get_crc_key fs f)) fl1 →
  Forall (λ f, returns (get_hash_key fs f)) fl2 →
  filter_duplicate_files fs files top
  = Ok (surviving (build (key_of (get_hash_key fs)) fl2 [])).
Proof.
  intros fl1 fl2 H1 H2 H3. unfold filter_duplicate_files. simpl.
  rewrite (group_files_build _ _ _ H1). simpl. fold fl1.
  rewrite (group_files_build _ _ _ H2). simpl. fold fl2.
  by rewrite (group_files_build _ _ _ H3).
Qed.

Lemma surviving_perm_groups key fl fl' g :
  fl ≡ₚ fl' → g ∈ surviving (build key fl []) →
  ∃ g', g' ∈ surviving (build key fl' []) ∧ g ≡ₚ g'.
Proof.
  intros Hp [Hm Hg]%list_elem_of_filter.
  apply list_elem_of_fmap in Hg as ([k g0] & -> & Hin). simpl in *.
  destruct (build_entry _ _ _ _ Hin) as [-> Hne].
  destruct (filter (λ f, key f = k) fl) as [|f l] eqn:Hfl; [done |].
  assert (f ∈ filter (λ f, key f = k) fl) as Hf by (rewrite Hfl; left).
  apply list_elem_of_filter in Hf as [<- Hf]. rewrite <-Hfl in *.
  exists (filter (λ f', key f' = key f) fl').
  assert (filter (λ f', key f' = key f) fl
          ≡ₚ filter (λ f', key f' = key f) fl') as Hg
    by (by apply filter_Permutation).
  split; [|done]. apply list_elem_of_filter. split.
  - unfold multi in *. by rewrite <-Hg.
  - apply list_elem_of_fmap. eexists (key f, _). split; [done |].
    apply build_entry_of. by rewrite <-Hp.
Qed.

(** X6: without [top] the order of the input does not matter.  A run on
    a reordered input returns as well, and the two results hold the same
    sets up to the order of their members. *)
Theorem exhaustive_order_independent fs files files' res :
  files ≡ₚ files' →
  filter_duplicate_files fs files None = Ok res →
  ∃ res', filter_duplicate_files fs files' None = Ok res'
          ∧ (∀ g, g ∈ res → ∃ g', g' ∈ res' ∧ g ≡ₚ g')
          ∧ (∀ g', g' ∈ res' → ∃ g, g ∈ res ∧ g ≡ₚ g').
Proof.
  intros Hp (fl1 & fl2 & Hr1 & Hr2 & Hr3 & Hfl1 & Hfl2 & -> & _)
    %filter_duplicate_files_candidates.
  simpl in Hfl1, Hfl2.
  set (fl1' := next_files (build (key_of (getsize fs)) files' []) None).
  set (fl2' := next_files (build (key_of (get_crc_key fs)) fl1' []) None).
  assert (fl1 ≡ₚ fl1') as Hp1.
  { rewrite Hfl1. unfold fl1'. rewrite !next_files_None_perm.
    by apply survivors_perm. }
  assert (fl2 ≡ₚ fl2') as Hp2.
  { rewrite Hfl2. unfold fl2'. rewrite !next_files_None_perm.
    by apply survivors_perm. }
  eexists. split_and!.
  - apply (filter_duplicate_files_returns fs files' None).
    + by rewrite <-Hp.
    + simpl. fold fl1'. by rewrite <-Hp1.
    + simpl. fold fl1' fl2'. by rewrite <-Hp2.
  - simpl. fold fl1' fl2'. intros g Hg.
    by apply (surviving_perm_groups _ fl2).
  - simpl. fold fl1' fl2'. intros g' Hg'.
    destruct (surviving_perm_groups (key_of (get_hash_key fs)) fl2' fl2 g')
      as (g & Hg & Hgg); [done | done |].
    by exists g.
Qed.

Lemma exhaustive_order_independent_witness :
  ∃ res',
    filter_duplicate_files sample_fs ["a2"; "b"; "c2"; "a1"; "c1"]%string None
    = Ok res'
    ∧ (∀ g, g ∈ [["a1"; "a2"]; ["c1"; "c2"]]%string →
            ∃ g', g' ∈ res' ∧ g ≡ₚ g')
    ∧ (∀ g', g' ∈ res' →
             ∃ g, g ∈ [["a1"; "a2"]; ["c1"; "c2"]]%string ∧ g ≡ₚ g').
Proof.
  apply (exhaustive_order_independent sample_fs
           ["c1"; "a1"; "c2"; "b"; "a2"]%string).
  - apply (Permutation_rev ["c1"; "a1"; "c2"; "b"; "a2"]%string).
  - vm_compute. reflexivity.
Defined.



(** ** The progress line *)

Lemma surviving_setdefault_append_aux d k f :
  let m := length (getitem d k) in
  length (surviving (setdefault_append d k f))
  = length (surviving d) + (if decide (m = 1) then 1 else 0)
  ∧ length (concat (surviving (setdefault_append d k f)))
    = length (concat (surviving d))
      + (if decide (m = 0) then 0 else if decide (m = 1) then 2 else 1).
Proof.
  unfold surviving, values.
  induction d as [|[k0 l0] d IH]; [done |].
  cbn [setdefault_append getitem].
  destruct (decide (k0 = k)) as [->|Hne].
  - rewrite !fmap_cons, !filter_cons. cbn [snd].
    assert (length (l0 ++ [f]) = length l0 + 1) as Hlen
      by (by rewrite length_app).
    destruct (decide (multi (l0 ++ [f]))) as [H1|H1],
             (decide (multi l0)) as [H2|H2];
      unfold multi in H1, H2; rewrite Hlen in H1;
      repeat case_decide; try lia;
      cbn [concat length]; rewrite ?length_app; cbn [length]; lia.
  - rewrite !fmap_cons, !filter_cons. cbn [snd].
    destruct IH as [IH1 IH2]. cbv zeta in IH1, IH2.
    destruct (decide (multi l0)); cbn [concat length];
      rewrite ?length_app; lia.
Qed.

Lemma surviving_setdefault_append d k f :
  let d' := setdefault_append d k f in
  let n := length (getitem d' k) in
  length (surviving d')
  = length (surviving d) + (if decide (n = 2) then 1 else 0)
  ∧ length (concat (surviving d'))
    = length (concat (surviving d))
      + (if decide (1 < n) then if decide (n = 2) then 2 else 1 else 0).
Proof.
  cbv zeta. rewrite getitem_setdefault_append.
  destruct (decide (k = k)) as [_|Hne]; [|done].
  assert (length (getitem d k ++ [f]) = length (getitem d k) + 1) as Hlen
    by (by rewrite length_app).
  destruct (surviving_setdefault_append_aux d k f) as [H1 H2].
  cbv zeta in H1, H2. rewrite H1, H2.
  repeat case_decide; unfold multi in *; lia.
Qed.

Lemma group_files_progress_counts kf files d c dc i :
  dc = length (surviving d) → c = length (concat (surviving d)) →
  group_files_progress kf files d c dc i
  = d' ← group_files kf files d;
    Ok (d', (i + length files, length (surviving d'),
             length (concat (surviving d')))).
Proof.
  revert d c dc i. induction files as [|f files IH]; intros d c dc i Hdc Hc.
  - simpl. subst. by rewrite Nat.add_0_r.
  - simpl. destruct (kf f) as [k|e]; simpl; [|done].
    destruct (surviving_setdefault_append d k f) as [H1 H2].
    simpl in H1, H2.
    destruct (decide (1 < length (getitem (setdefault_append d k f) k)))
      as [Hgt|Hle].
    + destruct (decide (length (getitem (setdefault_append d k f) k) = 2))
        as [H2eq|H2ne].
      * rewrite IH by lia. destruct (group_files kf files _); simpl; [|done].
        do 4 f_equal; lia.
      * rewrite IH by lia. destruct (group_files kf files _); simpl; [|done].
        do 4 f_equal; lia.
    + rewrite decide_False in H1 by lia.
      rewrite IH by lia. destruct (group_files kf files _); simpl; [|done].
      do 4 f_equal; lia.
Qed.

(** X8: the numbers of the progress line are right.  The loop with the
    counters builds the dictionary of the loop without them and fails where
    it fails; at the end [i] is the number of files checked,
    [duplicate_count] the number of groups with at least two members and
    [count] the number of files in those groups. *)
Theorem progress_counts kf files :
  group_files_progress kf files [] 0 0 0
  = d ← group_files kf files [];
    Ok (d, (length files, length (surviving d),
            length (concat (surviving d)))).
Proof. by rewrite group_files_progress_counts. Qed.

(** * The deleter *)

(** ** Sorting by a key *)

Lemma with_keys_values {A} (key : A → outcome Z) (l : list A) keyed :
  with_keys key l = Returned keyed → keyed.*2 = l.
Proof.
  revert keyed. induction l as [|x l IH]; intros keyed; simpl.
  - by intros [= <-].
  - destruct (key x) as [k|e]; simpl; [|done].
    destruct (with_keys key l) as [rest|e]; simpl; [|done].
    intros [= <-]. csimpl. by rewrite IH.
Qed.

Lemma with_keys_total {A} (key : A → outcome Z) (k : A → Z) (l : list A) :
  Forall (λ x, key x = Returned (k x)) l →
  with_keys key l = Returned ((λ x, (k x, x)) <$> l).
Proof.
  induction 1 as [|x l Hx _ IH]; [done |].
  simpl. rewrite Hx. simpl. by rewrite IH.
Qed.

Lemma insert_by_key_perm {A} (kx : Z * A) l : insert_by_key kx l ≡ₚ kx :: l.
Proof.
  induction l as [|ky l IH]; simpl; [done |].
  case_decide; [|done]. rewrite IH. apply perm_swap.
Qed.

Lemma sort_keyed_perm {A} (keyed : list (Z * A)) :
  foldr insert_by_key [] keyed ≡ₚ keyed.
Proof.
  induction keyed as [|kx l IH]; simpl; [done |].
  by rewrite insert_by_key_perm, IH.
Qed.

Lemma insert_by_key_sorted {A} (kx : Z * A) l :
  StronglySorted (λ a b, (b.1 ≤ a.1)%Z) l →
  StronglySorted (λ a b, (b.1 ≤ a.1)%Z) (insert_by_key kx l).
Proof.
  induction l as [|ky l IH]; simpl; intros Hl.
  - repeat constructor.
  - apply StronglySorted_cons in Hl as [Hy Hl]. case_decide as Hlt.
    + apply StronglySorted_cons. split; [|by apply IH].
      rewrite insert_by_key_perm. apply Forall_cons. split; [lia | done].
    + apply StronglySorted_cons. split; [|by apply StronglySorted_cons].
      apply Forall_cons. split; [lia |].
      eapply Forall_impl; [exact Hy |]. simpl. intros; lia.
Qed.

Lemma sort_keyed_sorted {A} (keyed : list (Z * A)) :
  StronglySorted (λ a b, (b.1 ≤ a.1)%Z) (foldr insert_by_key [] keyed).
Proof.
  induction keyed as [|kx l IH]; simpl; [constructor |].
  by apply insert_by_key_sorted.
Qed.

Lemma sorted_reverse_perm {A} (key : A → outcome Z) (l s : list A) :
  sorted_reverse key l = Returned s → s ≡ₚ l.
Proof.
  unfold sorted_reverse.
  destruct (with_keys key l) as [keyed|e] eqn:Hk; simpl; [|done].
  intros [= <-]. rewrite sort_keyed_perm. by rewrite (with_keys_values _ _ _ Hk).
Qed.

(** With a key that returns everywhere the sort returns, and its first
    element has the largest key. *)
Lemma sorted_reverse_total {A} (key : A → outcome Z) (k : A → Z) (l : list A) :
  Forall (λ x, key x = Returned (k x)) l →
  ∃ s, sorted_reverse key l = Returned s
       ∧ s ≡ₚ l
       ∧ ∀ x rest, s = x :: rest → Forall (λ y, (k y ≤ k x)%Z) rest.
Proof.
  intros Hl. unfold sorted_reverse. rewrite (with_keys_total _ k) by done.
  simpl. eexists. split; [done |]. split.
  - rewrite sort_keyed_perm, <-list_fmap_compose. simpl.
    by rewrite list_fmap_id.
  - intros x rest Hs.
    pose proof (sort_keyed_sorted ((λ x, (k x, x)) <$> l)) as Hsorted.
    pose proof (sort_keyed_perm ((λ x, (k x, x)) <$> l)) as Hperm.
    destruct (foldr insert_by_key [] _) as [|[kx x'] s'] eqn:Hf; [done |].
    csimpl in Hs. injection Hs as -> <-.
    apply StronglySorted_cons in Hsorted as [Hx _].
    assert (∀ e, e ∈ (kx, x) :: s' → e.1 = k e.2) as Hkeys.
    { intros e He. rewrite Hperm in He.
      by apply list_elem_of_fmap in He as (y & -> & _). }
    apply Forall_fmap, Forall_forall. intros e He. simpl.
    rewrite Forall_forall in Hx. specialize (Hx e He). simpl in Hx.
    pose proof (Hkeys e ltac:(by right)) as He1.
    pose proof (Hkeys (kx, x) ltac:(left)) as Hx1. simpl in Hx1.
    lia.
Qed.

(** ** Removing files *)

(** Whatever is passed and whether or not it raises, [remove_all] leaves
    every path as it was or removes it, and removes listed paths only. *)
Lemma remove_all_lookup (fs : filesystem) paths q :
  (remove_all fs paths).1 !! q = fs !! q
  ∨ ((remove_all fs paths).1 !! q = None ∧ q ∈ paths).
Proof.
  revert fs. induction paths as [|p paths IH]; intros fs; simpl; [by left |].
  destruct (fs !! p) eqn:Hp; [|by left].
  destruct (IH (delete p fs)) as [Heq|[Hnone Hin]].
  - rewrite Heq. destruct (decide (p = q)) as [->|Hne].
    + right. split; [apply lookup_delete_eq | left].
    + left. by apply lookup_delete_ne.
  - right. split; [done | by right].
Qed.


Lemma delete_older_lookup (fs : filesystem) mtime paths q :
  (delete_older fs mtime paths).1 !! q = fs !! q
  ∨ ((delete_older fs mtime paths).1 !! q = None ∧ q ∈ paths).
Proof.
  unfold delete_older.
  destruct (getsize_first fs paths); [|by left].
  destruct (sorted_reverse (getmtime fs mtime) paths) as [s|e] eqn:Hs;
    [|by left].
  destruct (remove_all_lookup fs (drop 1 s) q) as [Heq|[Hnone Hin]];
    [by left | right].
  split; [done |]. rewrite <-(sorted_reverse_perm _ _ _ Hs).
  eapply elem_of_submseteq; [exact Hin |].
  apply sublist_submseteq, sublist_drop.
Qed.

Lemma delete_groups_lookup (fs : filesystem) mtime groups q :
  (delete_groups fs mtime groups).1 !! q = fs !! q
  ∨ ((delete_groups fs mtime groups).1 !! q = None ∧ q ∈ concat groups).
Proof.
  revert fs. induction groups as [|g groups IH]; intros fs; simpl; [by left |].
  pose proof (delete_older_lookup fs mtime g q) as Hg.
  destruct (delete_older fs mtime g) as [fs1 [[]|e]]; simpl in *.
  - destruct (IH fs1) as [Heq|[Hnone Hin]].
    + rewrite Heq. destruct Hg as [?|[? ?]]; [by left | right].
      split; [done |]. apply elem_of_app. by left.
    + right. split; [done |]. apply elem_of_app. by right.
  - destruct Hg as [?|[? ?]]; [by left | right].
    split; [done |]. apply elem_of_app. by left.
Qed.

Lemma delete_duplicates_only_removes_aux fs mtime files delete q :
  (delete_duplicates fs mtime files delete).1 !! q = fs !! q
  ∨ ((delete_duplicates fs mtime files delete).1 !! q = None
     ∧ q ∈ concat files).
Proof.
  unfold delete_duplicates. destruct delete; [|by left].
  destruct (sorted_reverse (getsize_first fs) files) as [s|e] eqn:Hs;
    [|by left].
  destruct (delete_groups_lookup fs mtime s q) as [?|[? Hin]];
    [by left | right].
  split; [done |].
  by rewrite <-(concat_Permutation _ _ (sorted_reverse_perm _ _ _ Hs)).
Qed.

(** X9: whatever it is given, and also when it raises half-way,
    [delete_duplicates] creates and changes no file: every path is as it was
    or is gone, only paths of the given groups are removed, and without
    [delete] nothing is. *)
Theorem delete_duplicates_only_removes fs mtime files delete :
  let fs' := (delete_duplicates fs mtime files delete).1 in
  (∀ q, fs' !! q = fs !! q ∨ (fs' !! q = None ∧ q ∈ concat files))
  ∧ fs' ⊆ fs
  ∧ (delete = false → fs' = fs).
Proof.
  assert (∀ q, (delete_duplicates fs mtime files delete).1 !! q = fs !! q
               ∨ ((delete_duplicates fs mtime files delete).1 !! q = None
                  ∧ q ∈ concat files)) as Hq.
  { intros q. unfold delete_duplicates. destruct delete; [|by left].
    destruct (sorted_reverse (getsize_first fs) files) as [s|e] eqn:Hs;
      [|by left].
    destruct (delete_groups_lookup fs mtime s q) as [?|[? Hin]];
      [by left | right].
    split; [done |].
    by rewrite <-(concat_Permutation _ _ (sorted_reverse_perm _ _ _ Hs)). }
  split_and!; [done | |].
  - apply map_subseteq_spec. intros q x Hx.
    destruct (Hq q) as [Heq|[Hnone _]]; congruence.
  - by intros ->.
Qed.

Lemma delete_duplicates_only_removes_witness :
  (delete_duplicates sample_fs (λ _, 0%Z) [["a1"; "a2"]%string] false).1
  = sample_fs.
Proof.
  by apply (delete_duplicates_only_removes sample_fs (λ _, 0%Z)
              [["a1"; "a2"]%string] false).
Defined.

(** ** Keeping the newest file *)










(** ** A path listed twice *)




(** * The enumerator *)

Lemma no_hidden_part_forallb parts :
  no_hidden_part parts = forallb (λ d, negb (startswith "." d)) parts.
Proof.
  unfold no_hidden_part.
  assert (∀ r, foldl (λ r d, r && negb (startswith "." d)) r parts
               = r && forallb (λ d, negb (startswith "." d)) parts) as H.
  { induction parts as [|d parts IH]; intros r; simpl.
    - by rewrite andb_true_r.
    - by rewrite IH, andb_assoc. }
  by rewrite H.
Qed.

Section get_files_facts.

Variable walk : list (string * list string * list string).
Variable islink : path → bool.
Variable abspath : path → path.
Variable fs : filesystem.
Variables include_hidden include_empty : bool.

Local Abbreviation condition :=
  (get_files_condition islink abspath fs include_hidden include_empty).
Local Abbreviation wanted' :=
  (wanted islink abspath fs include_hidden include_empty).
Local Abbreviation stat_needed' :=
  (stat_needed islink abspath include_hidden include_empty).
Local Abbreviation collect' :=
  (collect islink abspath fs include_hidden include_empty).
Local Abbreviation found entry :=
  (stat_needed' entry = true → is_Some (fs !! path_join entry.1 entry.2)).

Lemma get_files_condition_spec entry :
  condition entry.1 entry.2
  = if stat_needed' entry then
      match fs !! path_join entry.1 entry.2 with
      | Some _ => Ok (wanted' entry)
      | None => Raise (FileNotFoundError (path_join entry.1 entry.2))
      end
    else Ok (wanted' entry).
Proof.
  unfold get_files_condition, stat_needed, wanted.
  rewrite no_hidden_part_forallb.
  destruct (islink _); simpl; [done |].
  destruct (endswith ".pdf" _); simpl; [|done].
  destruct (include_hidden || _); simpl; [|done].
  destruct include_empty; simpl; [done |].
  destruct (fs !! _) as [f|]; [|done].
  f_equal. apply bool_decide_ext. destruct (content f); simpl; [|split; [done | lia]].
  split; [lia | done].
Qed.

Lemma collect_app l1 l2 :
  collect' (l1 ++ l2) = a ← collect' l1; b ← collect' l2; Ok (a ++ b).
Proof.
  induction l1 as [|entry l1 IH]; simpl.
  - by destruct (collect' l2).
  - destruct (condition entry.1 entry.2) as [b|e]; simpl; [|done].
    rewrite IH. destruct (collect' l1) as [a|e]; simpl; [|done].
    destruct (collect' l2) as [c|e]; simpl; [|done]. by destruct b.
Qed.

Lemma get_files_in_collect dirpath filenames :
  get_files_in islink abspath fs include_hidden include_empty dirpath filenames
  = collect' ((λ filename, (dirpath, filename)) <$> filenames).
Proof.
  induction filenames as [|f l IH]; simpl; [done |]. by rewrite IH.
Qed.

Lemma get_files_collect :
  get_files walk islink abspath fs include_hidden include_empty
  = collect' (walk_entries walk).
Proof.
  unfold get_files, walk_entries.
  induction walk as [|[[d ds] fns] w IH]; simpl; [done |].
  rewrite collect_app, IH, get_files_in_collect. done.
Qed.

Lemma collect_returns entries :
  Forall (λ e, found e) entries →
  collect' entries
  = Ok ((λ e, path_join e.1 e.2) <$> filter (λ e, wanted' e = true) entries).
Proof.
  induction 1 as [|e l He _ IH]; [done |].
  simpl. rewrite get_files_condition_spec, IH, filter_cons.
  destruct (stat_needed' e) eqn:Hs.
  - destruct (He eq_refl) as [f ->]. simpl.
    destruct (wanted' e); by rewrite ?decide_True, ?decide_False by done.
  - simpl. destruct (wanted' e); by rewrite ?decide_True, ?decide_False by done.
Qed.


Lemma collect_Ok_inv entries l :
  collect' entries = Ok l → Forall (λ e, found e) entries.
Proof.
  revert l. induction entries as [|e entries IH]; intros l; [done |].
  simpl. rewrite get_files_condition_spec.
  destruct (stat_needed' e) eqn:Hs.
  - destruct (fs !! path_join e.1 e.2) as [f|] eqn:Hf; [|done]. simpl.
    destruct (collect' entries) as [l'|err]; [|done]. intros _.
    apply Forall_cons. split; [by rewrite Hf | by eapply IH].
  - simpl. destruct (collect' entries) as [l'|err]; [|done]. intros _.
    apply Forall_cons. split; [intros ?; congruence | by eapply IH].
Qed.

End get_files_facts.

Lemma chars_app (a b : string) : chars (a +:+ b) = chars a ++ chars b.
Proof. unfold chars. induction a as [|c a IH]; simpl; [done |]. by rewrite IH. Qed.

(** A joined path ends with the name that was joined. *)
Lemma path_join_suffix a b : chars b `suffix_of` chars (path_join a b).
Proof.
  unfold path_join. destruct (startswith "/" b); [done |].
  destruct (bool_decide (a = ""%string) || endswith "/" a).
  - rewrite chars_app. by apply suffix_app_r.
  - rewrite !chars_app. by do 2 apply suffix_app_r.
Qed.

Lemma endswith_path_join suf a b :
  endswith suf b = true → endswith suf (path_join a b) = true.
Proof.
  unfold endswith. intros H%bool_decide_eq_true. apply bool_decide_eq_true.
  etrans; [exact H | apply path_join_suffix].
Qed.

(** X13: what [get_files] yields.  When it returns, it yields, in the
    order of the walk, exactly the joined paths of the entries that are no
    symbolic link, whose name ends in [.pdf], that have no hidden part in
    their absolute path (unless [include_hidden]) and that are not empty
    (unless [include_empty]); and every file whose size it had to ask for
    existed. *)
Theorem get_files_yields walk islink abspath fs include_hidden include_empty l :
  get_files walk islink abspath fs include_hidden include_empty = Ok l →
  l = (λ e, path_join e.1 e.2)
        <$> filter (λ e, wanted islink abspath fs include_hidden
                           include_empty e = true) (walk_entries walk)
  ∧ Forall (λ e, stat_needed islink abspath include_hidden include_empty e
                 = true → is_Some (fs !! path_join e.1 e.2))
      (walk_entries walk).
Proof.
  rewrite get_files_collect. intros Hl.
  pose proof (collect_Ok_inv _ _ _ _ _ _ _ Hl) as Hfound.
  rewrite (collect_returns _ _ _ _ _ _ Hfound) in Hl.
  by injection Hl as <-.
Qed.


Lemma get_files_member walk islink abspath fs include_hidden include_empty
    l p :
  get_files walk islink abspath fs include_hidden include_empty = Ok l →
  p ∈ l →
  ∃ e, e ∈ walk_entries walk ∧ p = path_join e.1 e.2
       ∧ wanted islink abspath fs include_hidden include_empty e = true.
Proof.
  rewrite get_files_collect. intros Hl Hp.
  pose proof (collect_Ok_inv _ _ _ _ _ _ _ Hl) as Hfound.
  rewrite (collect_returns _ _ _ _ _ _ Hfound) in Hl. injection Hl as <-.
  apply list_elem_of_fmap in Hp as (e & -> & [Hw He]%list_elem_of_filter).
  by exists e.
Qed.

Lemma wanted_facts islink abspath (fs : filesystem) include_hidden
    include_empty e :
  wanted islink abspath fs include_hidden include_empty e = true →
  let p := path_join e.1 e.2 in
  endswith ".pdf" p = true
  ∧ islink p = false
  ∧ (include_empty = false → ∃ f, fs !! p = Some f ∧ content f ≠ [])
  ∧ (include_hidden = false →
     Forall (λ d, startswith "." d = false) (split_sep (abspath p))).
Proof.
  intros Hw. unfold wanted in Hw. destruct e as [d f]. simpl in *.
  apply andb_true_iff in Hw as [Hw Hempty].
  apply andb_true_iff in Hw as [Hw Hhidden].
  apply andb_true_iff in Hw as [Hlink Hpdf].
  split_and!.
  - by apply endswith_path_join.
  - by apply negb_true_iff.
  - intros ->. simpl in Hempty.
    destruct (fs !! path_join d f) as [x|]; [|done].
    exists x. split; [done |]. by apply bool_decide_eq_true in Hempty.
  - intros ->. simpl in Hhidden.
    apply Forall_forall. intros part Hpart.
    rewrite forallb_forall in Hhidden. apply negb_true_iff, Hhidden.
    by apply list_elem_of_In.
Qed.

(** X15: every path [get_files] yields ends in [.pdf] and is no symbolic
    link; without [include_empty] it is an existing file with at least one
    byte, and without [include_hidden] no part of its absolute path starts
    with a dot. *)
Theorem get_files_only_pdf walk islink abspath fs include_hidden include_empty
    l p :
  get_files walk islink abspath fs include_hidden include_empty = Ok l →
  p ∈ l →
  endswith ".pdf" p = true
  ∧ islink p = false
  ∧ (include_empty = false → ∃ f, fs !! p = Some f ∧ content f ≠ [])
  ∧ (include_hidden = false →
     Forall (λ d, startswith "." d = false) (split_sep (abspath p))).
Proof.
  intros Hl Hp.
  destruct (get_files_member _ _ _ _ _ _ _ _ Hl Hp) as (e & _ & -> & Hw).
  by apply wanted_facts.
Qed.

Lemma get_files_yields_witness :
  ["docs/a.pdf"; "docs/gone.pdf"; "docs/sub/c.pdf"; "docs/sub/e.pdf"]%string
  = (λ e, path_join e.1 e.2)
      <$> filter (λ e, wanted (λ _, false) home_abspath docs_fs false true e
                       = true) (walk_entries sample_walk)
  ∧ Forall (λ e, stat_needed (λ _, false) home_abspath false true e = true →
                 is_Some (docs_fs !! path_join e.1 e.2))
      (walk_entries sample_walk).
Proof.
  apply get_files_yields. vm_compute. reflexivity.
Defined.


Lemma get_files_only_pdf_witness :
  endswith ".pdf" "docs/sub/c.pdf" = true
  ∧ false = false
  ∧ (true = false → ∃ f, docs_fs !! "docs/sub/c.pdf"%string = Some f
                         ∧ content f ≠ [])
  ∧ (false = false →
     Forall (λ d, startswith "." d = false)
       (split_sep (home_abspath "docs/sub/c.pdf"))).
Proof.
  apply (get_files_only_pdf sample_walk (λ _, false) home_abspath docs_fs
           false true
           ["docs/a.pdf"; "docs/gone.pdf"; "docs/sub/c.pdf";
            "docs/sub/e.pdf"]%string).
  - vm_compute. reflexivity.
  - do 2 right. left.
Defined.

(** ** The enumerator and the pipeline together *)

Lemma parse_arguments_keeps parsed :
  include_hidden (parse_arguments parsed) = include_hidden parsed
  ∧ include_empty (parse_arguments parsed) = include_empty parsed
  ∧ fast (parse_arguments parsed) = fast parsed
  ∧ delete_old (parse_arguments parsed) = delete_old parsed.
Proof. unfold parse_arguments. by case_match. Qed.

(** X16: the program only ever reports files [get_files] accepts: every
    member of a duplicate set found from a walk ends in [.pdf], is no
    symbolic link, is a non-empty file unless [--empty] is given, and has no
    hidden part in its absolute path unless [--hidden] is given. *)
Theorem reported_files_are_pdf walk islink abspath fs parsed res g p :
  find_duplicates walk islink abspath fs parsed = Ok res →
  g ∈ res → p ∈ g →
  endswith ".pdf" p = true
  ∧ islink p = false
  ∧ (include_empty parsed = false → ∃ f, fs !! p = Some f ∧ content f ≠ [])
  ∧ (include_hidden parsed = false →
     Forall (λ d, startswith "." d = false) (split_sep (abspath p))).
Proof.
  unfold find_duplicates.
  destruct (parse_arguments_keeps parsed) as (-> & -> & _).
  destruct (get_files walk islink abspath fs _ _) as [FILES|e] eqn:Hfiles;
    [|done].
  rewrite bind_Ok. intros Hrun Hg Hp.
  destruct (result_within_input_aux _ _ _ _ Hrun) as (Hsub & _ & _).
  assert (p ∈ FILES) as HpF.
  { eapply elem_of_submseteq; [|exact Hsub].
    apply elem_of_concat. by exists g. }
  destruct (get_files_member _ _ _ _ _ _ _ _ Hfiles HpF) as (e & _ & -> & Hw).
  by apply wanted_facts.
Qed.

Lemma reported_files_are_pdf_witness :
  endswith ".pdf" "docs/sub/c.pdf" = true
  ∧ false = false
  ∧ (include_empty default_args = false →
     ∃ f, docs_fs !! "docs/sub/c.pdf"%string = Some f ∧ content f ≠ [])
  ∧ (include_hidden default_args = false →
     Forall (λ d, startswith "." d = false)
       (split_sep (home_abspath "docs/sub/c.pdf"))).
Proof.
  apply (reported_files_are_pdf
           [("docs", ["sub"], ["a.pdf"; "b.txt"]);
            ("docs/sub", [], ["c.pdf"; "e.pdf"; ".h.pdf"])]%string
           (λ _, false) home_abspath docs_fs default_args
           [["docs/a.pdf"; "docs/sub/c.pdf"]%string]
           ["docs/a.pdf"; "docs/sub/c.pdf"]%string).
  - vm_compute. reflexivity.
  - left.
  - right. left.
Defined.

(** * The reporter *)

(** ** The order of strings *)

Lemma ltb_leb (a b : string) : String.ltb a b = true → String.leb a b = true.
Proof. unfold String.ltb, String.leb. by destruct (String.compare a b). Qed.

Lemma not_ltb_leb (a b : string) :
  String.ltb a b = false → String.leb b a = true.
Proof.
  unfold String.ltb, String.leb. rewrite (String.compare_antisym b a).
  by destruct (String.compare a b).
Qed.

Lemma leb_trans (a b c : string) :
  String.leb a b = true → String.leb b c = true → String.leb a c = true.
Proof.
  intros H1 H2. apply Is_true_true.
  apply Is_true_true in H1, H2.
  exact (transitivity (R := String.le) H1 H2).
Qed.

Lemma leb_refl (a : string) : String.leb a a = true.
Proof. apply Is_true_true. exact (reflexivity (R := String.le) a). Qed.

Lemma str_min_spec first m :
  str_min first m ∈ first :: m
  ∧ ∀ s, s ∈ first :: m → String.leb (str_min first m) s = true.
Proof.
  unfold str_min. revert first. induction m as [|x m IH]; intros first; simpl.
  - split; [left |]. intros s ->%list_elem_of_singleton. apply leb_refl.
  - destruct (String.ltb x first) eqn:Hlt.
    + destruct (IH x) as [Hin Hle]. split.
      * apply elem_of_cons in Hin as [->|Hin]; [right; left | by do 2 right].
      * intros s [->|Hs]%elem_of_cons; [|by apply Hle].
        eapply leb_trans; [apply Hle; left | by apply ltb_leb].
    + destruct (IH first) as [Hin Hle]. split.
      * apply elem_of_cons in Hin as [->|Hin]; [left | by do 2 right].
      * intros s [->|[->|Hs]%elem_of_cons]%elem_of_cons.
        -- apply Hle. left.
        -- eapply leb_trans; [apply Hle; left | by apply not_ltb_leb].
        -- apply Hle. by right.
Qed.

Lemma str_max_spec first m :
  str_max first m ∈ first :: m
  ∧ ∀ s, s ∈ first :: m → String.leb s (str_max first m) = true.
Proof.
  unfold str_max. revert first. induction m as [|x m IH]; intros first; simpl.
  - split; [left |]. intros s ->%list_elem_of_singleton. apply leb_refl.
  - destruct (String.ltb first x) eqn:Hlt.
    + destruct (IH x) as [Hin Hle]. split.
      * apply elem_of_cons in Hin as [->|Hin]; [right; left | by do 2 right].
      * intros s [->|Hs]%elem_of_cons; [|by apply Hle].
        eapply leb_trans; [by apply ltb_leb | apply Hle; left].
    + destruct (IH first) as [Hin Hle]. split.
      * apply elem_of_cons in Hin as [->|Hin]; [left | by do 2 right].
      * intros s [->|[->|Hs]%elem_of_cons]%elem_of_cons.
        -- apply Hle. left.
        -- eapply leb_trans; [by apply not_ltb_leb | apply Hle; left].
        -- apply Hle. by right.
Qed.

(** ** [os.path.commonprefix] *)

Lemma ascii_compare_refl c : Ascii.compare c c = Eq.
Proof.
  pose proof (Ascii.compare_antisym c c) as H.
  by destruct (Ascii.compare c c).
Qed.

(** What two strings share is a prefix of everything between them. *)
Lemma common_prefix_between (a s b : string) :
  String.leb a s = true → String.leb s b = true →
  chars (common_prefix a b) `prefix_of` chars s.
Proof.
  revert s b. induction a as [|c a IH]; intros s b Has Hsb.
  - apply prefix_nil.
  - destruct b as [|d b]; [apply prefix_nil |]. simpl.
    destruct (decide (c = d)) as [<-|Hne]; [|apply prefix_nil].
    destruct s as [|e s]; [done |].
    unfold String.leb in Has, Hsb. simpl in Has, Hsb.
    destruct (Ascii.compare c e) eqn:Hce; [| |done].
    + apply Ascii.compare_eq_iff in Hce as <-.
      rewrite ascii_compare_refl in Hsb.
      simpl. apply prefix_cons. by apply IH.
    + rewrite Ascii.compare_antisym, Hce in Hsb. done.
Qed.

Lemma commonprefix_prefix m s :
  s ∈ m → chars (commonprefix m) `prefix_of` chars s.
Proof.
  destruct m as [|first m]; [by intros ?%elem_of_nil |]. intros Hs. simpl.
  destruct (str_min_spec first m) as [_ Hmin].
  destruct (str_max_spec first m) as [_ Hmax].
  apply common_prefix_between; [by apply Hmin | by apply Hmax].
Qed.

(** On [s1 <= s2] the loop of [commonprefix] stops before it could index
    [s2] out of range. *)
Lemma common_prefix_in_range (a b : string) :
  String.leb a b = true →
  String.length (common_prefix a b) < String.length a →
  String.length (common_prefix a b) < String.length b.
Proof.
  revert b. induction a as [|c a IH]; intros b Hab; simpl; [lia |].
  destruct b as [|d b]; [done |].
  destruct (decide (c = d)) as [<-|Hne]; simpl; [|lia].
  unfold String.leb in Hab. simpl in Hab. rewrite ascii_compare_refl in Hab.
  intros Hlt. apply ->Nat.succ_lt_mono. apply IH; [done | lia].
Qed.

(** ** [os.path.dirname] *)

Lemma strip_while_suffix P l : strip_while P l `suffix_of` l.
Proof.
  induction l as [|c l IH]; simpl; [done |].
  destruct (P c); [by apply suffix_cons_r | done].
Qed.

Lemma strip_while_split P l :
  ∃ l1, l = l1 ++ strip_while P l ∧ forallb P l1 = true.
Proof.
  induction l as [|c l (l1 & IH & Hl1)]; simpl; [by exists [] |].
  destruct (P c) eqn:Hc.
  - exists (c :: l1). simpl. rewrite Hc, Hl1. split; [by f_equal | done].
  - by exists [].
Qed.

Lemma strip_while_head P l c l' :
  strip_while P l = c :: l' → P c = false.
Proof.
  induction l as [|d l IH]; simpl; [done |].
  destruct (P d) eqn:Hd; [done |]. by intros [= <- _].
Qed.

Lemma forallb_reverse {A} (P : A → bool) (l : list A) :
  forallb P (reverse l) = forallb P l.
Proof.
  induction l as [|x l IH]; [done |].
  rewrite reverse_cons, forallb_app, IH. simpl.
  rewrite andb_true_r. apply andb_comm.
Qed.

Lemma chars_of_chars l : chars (of_chars l) = l.
Proof. apply String.list_ascii_of_string_of_list_ascii. Qed.

Lemma of_chars_chars s : of_chars (chars s) = s.
Proof. apply String.string_of_list_ascii_of_string. Qed.

Lemma length_chars s : length (chars s) = String.length s.
Proof. induction s as [|c s IH]; simpl; [done |]. by f_equal. Qed.

(** The directory part is a prefix of the path; when it is more than
    slashes, a slash follows it in the path. *)
Lemma dirname_spec p :
  chars (dirname p) `prefix_of` chars p
  ∧ (forallb is_slash (chars (dirname p)) = false →
     (chars (dirname p) ++ ["/"%char]) `prefix_of` chars p).
Proof.
  unfold dirname.
  pose proof (strip_while_suffix (λ c, negb (is_slash c)) (reverse (chars p)))
    as Hsuf.
  destruct (strip_while (λ c, negb (is_slash c)) (reverse (chars p)))
    as [|c r] eqn:Hr.
  { simpl. split; [apply prefix_nil | done]. }
  assert (c = "/"%char) as ->.
  { apply strip_while_head in Hr. apply negb_false_iff in Hr.
    by apply bool_decide_eq_true in Hr. }
  assert (reverse ("/"%char :: r) `prefix_of` chars p) as Hhead.
  { apply prefix_suffix_reverse. by rewrite reverse_involutive. }
  assert (reverse ("/"%char :: r) = reverse r ++ ["/"%char]) as Hhr
    by apply reverse_cons.
  destruct (forallb is_slash (reverse ("/"%char :: r))) eqn:Hall.
  - rewrite chars_of_chars. split; [done |]. by rewrite Hall.
  - rewrite chars_of_chars.
    rewrite Hhr, reverse_app, reverse_involutive. simpl.
    destruct (strip_while_split is_slash r) as (sl & Hsplit & Hsl).
    assert (reverse r = reverse (strip_while is_slash r) ++ reverse sl) as Hrev
      by (rewrite Hsplit at 1; apply reverse_app).
    assert ((reverse (strip_while is_slash r) ++ ["/"%char])
            `prefix_of` reverse r ++ ["/"%char]) as Hpre.
    { rewrite Hrev. destruct (reverse sl) as [|c sl'] eqn:Hsl'.
      - by rewrite app_nil_r.
      - assert (c = "/"%char) as ->.
        { assert (forallb is_slash (reverse sl) = true) as Hf
            by (by rewrite forallb_reverse).
          rewrite Hsl' in Hf. simpl in Hf.
          apply andb_true_iff in Hf as [Hc _].
          by apply bool_decide_eq_true in Hc. }
        rewrite <-(assoc_L (++)). apply prefix_app, prefix_cons, prefix_nil. }
    rewrite Hhr in Hhead.
    split; [|intros _; by etrans].
    etrans; [|exact Hhead]. etrans; [|exact Hpre]. by apply prefix_app_r.
Qed.

Lemma chars_append (a b : string) : chars (a +:+ b) = chars a ++ chars b.
Proof. apply chars_app. Qed.

(** Cutting [len(prefix) + 1] characters and putting the prefix and a
    slash back gives the path, when the prefix and a slash begin it. *)
Lemma str_from_prefix (prefix s : string) :
  (chars prefix ++ ["/"%char]) `prefix_of` chars s →
  (prefix +:+ "/" +:+ str_from (String.length prefix + 1) s)%string = s.
Proof.
  intros [rest Hrest]. unfold str_from.
  rewrite <-(of_chars_chars s) at 2. rewrite Hrest.
  rewrite <-length_chars.
  replace (length (chars prefix) + 1) with (length (chars prefix ++ ["/"%char]))
    by (rewrite length_app; simpl; lia).
  rewrite drop_app_length.
  rewrite <-(of_chars_chars (prefix +:+ "/" +:+ of_chars rest)).
  rewrite !chars_app, chars_of_chars. simpl.
  by rewrite <-(assoc_L (++)).
Qed.

(** ** [sorted(paths)] *)

Lemma insert_str_perm x l : insert_str x l ≡ₚ x :: l.
Proof.
  induction l as [|y l IH]; simpl; [done |].
  destruct (String.ltb y x); [|done]. rewrite IH. apply perm_swap.
Qed.

Lemma sorted_str_perm l : sorted_str l ≡ₚ l.
Proof.
  induction l as [|x l IH]; simpl; [done |].
  by rewrite insert_str_perm, IH.
Qed.

Lemma insert_str_sorted x l :
  StronglySorted (λ a b, String.leb a b = true) l →
  StronglySorted (λ a b, String.leb a b = true) (insert_str x l).
Proof.
  induction l as [|y l IH]; simpl; intros Hl.
  - repeat constructor.
  - apply StronglySorted_cons in Hl as [Hy Hl].
    destruct (String.ltb y x) eqn:Hlt.
    + apply StronglySorted_cons. split; [|by apply IH].
      rewrite insert_str_perm. apply Forall_cons. split; [|done].
      by apply ltb_leb.
    + apply StronglySorted_cons. split; [|by apply StronglySorted_cons].
      apply Forall_cons. split; [by apply not_ltb_leb |].
      eapply Forall_impl; [exact Hy |]. simpl. intros z Hz.
      eapply leb_trans; [by apply not_ltb_leb | done].
Qed.

Lemma sorted_str_sorted l :
  StronglySorted (λ a b, String.leb a b = true) (sorted_str l).
Proof.
  induction l as [|x l IH]; simpl; [constructor |].
  by apply insert_str_sorted.
Qed.

(** ** One group of the report *)

Lemma print_group_inv fs pos paths e :
  print_group fs pos paths = Returned e →
  entry_pos e = pos
  ∧ entry_found e = length paths
  ∧ getsize_first fs paths = Returned (entry_size e)
  ∧ entry_prefix e = dirname (commonprefix paths)
  ∧ entry_lines e
    = enumerate1 (str_from (String.length (dirname (commonprefix paths)) + 1)
                    <$> sorted_str paths).
Proof.
  unfold print_group. destruct (getsize_first fs paths) as [n|err]; [|done].
  simpl. by intros [= <-].
Qed.

Lemma enumerate1_fst {A} (l : list A) :
  (enumerate1 l).*1 = seq 1 (length l).
Proof. unfold enumerate1. apply fst_zip. by rewrite length_seq. Qed.

Lemma enumerate1_snd {A} (l : list A) : (enumerate1 l).*2 = l.
Proof. unfold enumerate1. apply snd_zip. by rewrite length_seq. Qed.

(** The lines of a group, each put back behind the prefix of the header,
    are the paths of the group in ascending order, provided the prefix is
    more than slashes. *)
Lemma print_group_round_trip fs pos paths e :
  print_group fs pos paths = Returned e →
  forallb is_slash (chars (entry_prefix e)) = false →
  (λ line, (entry_prefix e +:+ "/" +:+ line.2)%string) <$> entry_lines e
  = sorted_str paths.
Proof.
  intros (_ & _ & _ & Hpre & Hlines)%print_group_inv Hslash.
  change (λ line : nat * string, (entry_prefix e +:+ "/" +:+ line.2)%string)
    with ((λ s, (entry_prefix e +:+ "/" +:+ s)%string) ∘ snd : nat * string → string).
  rewrite list_fmap_compose.
  rewrite Hlines, enumerate1_snd, <-list_fmap_compose.
  rewrite <-(list_fmap_id (sorted_str paths)) at 2.
  apply Forall_fmap_ext, Forall_forall. intros s Hs. simpl.
  rewrite Hpre in *. apply str_from_prefix.
  destruct (dirname_spec (commonprefix paths)) as [_ Hdir].
  etrans; [by apply Hdir |].
  apply commonprefix_prefix. by rewrite <-(sorted_str_perm paths).
Qed.

(** ** The whole report *)

Lemma print_groups_inv fs pos groups r :
  print_groups fs pos groups = Returned r →
  Forall2 (λ paths e, ∃ k, print_group fs (pos + k) paths = Returned e)
    groups r
  ∧ entry_pos <$> r = seq pos (length groups).
Proof.
  revert pos r. induction groups as [|g groups IH]; intros pos r; simpl.
  - intros [= <-]. by split.
  - destruct (print_group fs pos g) as [e|err] eqn:He; simpl; [|done].
    destruct (print_groups fs (S pos) groups) as [es|err] eqn:Hes; simpl;
      [|done].
    intros [= <-]. destruct (IH _ _ Hes) as [HF Hpos]. split.
    + constructor.
      * exists 0. by rewrite Nat.add_0_r.
      * eapply Forall2_impl; [exact HF |]. simpl.
        intros paths e' [k Hk]. exists (S k).
        by replace (pos + S k) with (S pos + k) by lia.
    + csimpl. rewrite Hpos. f_equal.
      by apply print_group_inv in He as (-> & _).
Qed.

Lemma with_keys_keys {A} (key : A → outcome Z) (l : list A) keyed :
  with_keys key l = Returned keyed →
  Forall (λ kx, key kx.2 = Returned kx.1) keyed.
Proof.
  revert keyed. induction l as [|x l IH]; intros keyed; simpl.
  - intros [= <-]. constructor.
  - destruct (key x) as [k|e] eqn:Hk; simpl; [|done].
    destruct (with_keys key l) as [rest|e]; simpl; [|done].
    intros [= <-]. constructor; [done | by apply IH].
Qed.

(** The groups come out of the sort with their sizes in descending order. *)
Lemma sorted_reverse_sizes {A} (key : A → outcome Z) (l s : list A) :
  sorted_reverse key l = Returned s →
  ∃ ks : list Z,
    Forall2 (λ x k, key x = Returned k) s ks
    ∧ StronglySorted (λ a b, (b ≤ a)%Z) ks.
Proof.
  unfold sorted_reverse.
  destruct (with_keys key l) as [keyed|e] eqn:Hk; simpl; [|done].
  intros [= <-]. exists (foldr insert_by_key [] keyed).*1. split.
  - apply Forall2_fmap, Forall_Forall2_diag.
    apply with_keys_keys in Hk. by rewrite sort_keyed_perm.
  - apply (StronglySorted_fmap _ (λ a b : Z * A, (b.1 ≤ a.1)%Z));
      [done | apply sort_keyed_sorted].
Qed.

Lemma slice_to_take {A} (l : list A) stop : ∃ m, slice_to l stop = take m l.
Proof.
  destruct stop as [n|]; simpl.
  - case_decide; eauto.
  - exists (length l). by rewrite take_ge.
Qed.

Lemma print_duplicates_inv fs files dc r :
  print_duplicates fs files dc = Returned r →
  ∃ s m ks,
    s ≡ₚ files
    ∧ slice_to s dc = take m s
    ∧ Forall2 (λ paths k, getsize_first fs paths = Returned k) s ks
    ∧ StronglySorted (λ a b, (b ≤ a)%Z) ks
    ∧ Forall2 (λ paths e, ∃ k, print_group fs (1 + k) paths = Returned e)
        (take m s) r
    ∧ entry_pos <$> r = seq 1 (length r).
Proof.
  unfold print_duplicates.
  destruct (sorted_reverse (getsize_first fs) files) as [s|err] eqn:Hs;
    simpl; [|done].
  intros Hr. destruct (slice_to_take s dc) as [m Hm].
  destruct (sorted_reverse_sizes _ _ _ Hs) as (ks & Hks & Hsorted).
  rewrite Hm in Hr. apply print_groups_inv in Hr as [HF Hpos].
  exists s, m, ks. split_and!; try done.
  - by eapply sorted_reverse_perm.
  - by rewrite Hpos, (Forall2_length _ _ _ HF).
Qed.

(** X17: the lines of the report lead back to the files.  Every displayed
    group is one of the given groups; its header tells how many paths it has
    and the size of its first path; its lines are numbered from 1; and when
    the printed directory prefix is more than slashes, the lines, each put
    back behind the prefix and a slash, are exactly the paths of the group in
    ascending order. *)
Theorem print_duplicates_lines fs files dc r e :
  print_duplicates fs files dc = Returned r → e ∈ r →
  ∃ paths,
    paths ∈ files
    ∧ entry_found e = length paths
    ∧ getsize_first fs paths = Returned (entry_size e)
    ∧ (entry_lines e).*1 = seq 1 (length paths)
    ∧ (forallb is_slash (chars (entry_prefix e)) = false →
       ∃ sorted,
         (λ line, (entry_prefix e +:+ "/" +:+ line.2)%string)
           <$> entry_lines e = sorted
         ∧ sorted ≡ₚ paths
         ∧ StronglySorted (λ a b, String.leb a b = true) sorted).
Proof.
  intros (s & m & ks & Hperm & _ & _ & _ & HF & _)%print_duplicates_inv He.
  apply list_elem_of_lookup in He as [i Hi].
  destruct (Forall2_lookup_r _ _ _ _ _ HF Hi) as (paths & Hpaths & k & Hk).
  exists paths.
  pose proof (print_group_inv _ _ _ _ Hk) as (_ & Hfound & Hsize & _ & Hlines).
  split_and!; try done.
  - rewrite <-Hperm. apply list_elem_of_lookup_2 in Hpaths.
    eapply elem_of_submseteq; [exact Hpaths | apply submseteq_take].
  - rewrite Hlines, enumerate1_fst, length_fmap.
    by rewrite (Permutation_length (sorted_str_perm paths)).
  - intros Hslash. exists (sorted_str paths). split_and!.
    + by eapply print_group_round_trip.
    + apply sorted_str_perm.
    + apply sorted_str_sorted.
Qed.




Lemma print_duplicates_lines_witness :
  ∃ paths,
    paths ∈ [["docs/a.pdf"; "docs/sub/c.pdf"]; ["docs/sub/e.pdf"]]%string
    ∧ 2 = length paths
    ∧ getsize_first docs_fs paths = Returned 4%Z
    ∧ [1; 2] = seq 1 (length paths)
    ∧ (forallb is_slash (chars "docs") = false →
       ∃ sorted,
         (λ line : nat * string, ("docs" +:+ "/" +:+ line.2)%string)
           <$> [(1, "a.pdf"); (2, "sub/c.pdf")]%string = sorted
         ∧ sorted ≡ₚ paths
         ∧ StronglySorted (λ a b, String.leb a b = true) sorted).
Proof.
  apply (print_duplicates_lines docs_fs
           [["docs/a.pdf"; "docs/sub/c.pdf"]; ["docs/sub/e.pdf"]]%string
           (Some 1%Z)
           [ReportEntry 1 2 4%Z "docs" [(1, "a.pdf"); (2, "sub/c.pdf")]%string]
           (ReportEntry 1 2 4%Z "docs" [(1, "a.pdf"); (2, "sub/c.pdf")]%string)).
  - vm_compute. reflexivity.
  - left.
Defined.


(** * The main program *)

Lemma print_groups_returns fs pos groups :
  Forall (λ g, ∃ n, getsize_first fs g = Returned n) groups →
  ∃ r, print_groups fs pos groups = Returned r.
Proof.
  intros H. revert pos. induction H as [|g groups [n Hn] _ IH]; intros pos.
  - by eexists.
  - simpl. unfold print_group. rewrite Hn. simpl.
    destruct (IH (S pos)) as [r ->]. simpl. by eexists.
Qed.

Lemma getsize_first_returns (fs : filesystem) g :
  g ≠ [] → Forall (λ p, is_Some (fs !! p)) g →
  getsize_first fs g = Returned (first_size fs g).
Proof.
  destruct g as [|p g]; [done |]. intros _ [[x Hx] _]%Forall_cons.
  simpl. by rewrite Hx.
Qed.

(** On non-empty groups of existing files the report is printed. *)
Lemma print_duplicates_returns fs files dc :
  Forall (λ g, g ≠ []) files →
  Forall (λ p, is_Some (fs !! p)) (concat files) →
  ∃ r, print_duplicates fs files dc = Returned r.
Proof.
  intros Hne Hex.
  assert (Forall (λ g, getsize_first fs g = Returned (first_size fs g)) files)
    as Hsize.
  { apply Forall_forall. intros g Hg. apply getsize_first_returns.
    - rewrite Forall_forall in Hne. by apply Hne.
    - apply Forall_forall. intros p Hp. rewrite Forall_forall in Hex.
      apply Hex, elem_of_concat. by exists g. }
  unfold print_duplicates.
  destruct (sorted_reverse_total _ _ _ Hsize) as (s & -> & Hperm & _). simpl.
  apply print_groups_returns. apply Forall_forall. intros g Hg.
  eexists. rewrite Forall_forall in Hsize. apply Hsize.
  rewrite <-Hperm. eapply elem_of_submseteq; [exact Hg |].
  apply sublist_submseteq, slice_to_sublist.
Qed.

Lemma foldl_sum_lengths {A} (ls : list (list A)) n :
  foldl (λ sumValue files, sumValue + length files) n ls
  = n + length (concat ls).
Proof.
  revert n. induction ls as [|l ls IH]; intros n; simpl; [lia |].
  rewrite IH, length_app. lia.
Qed.

(** The pieces of a run of the main program whose pipeline returned. *)
Lemma main_run walk islink abspath mtime fs parsed res :
  find_duplicates walk islink abspath fs parsed = Ok res →
  ∃ report,
    print_duplicates fs res (top (parse_arguments parsed)) = Returned report
    ∧ main walk islink abspath mtime fs parsed
      = match delete_duplicates fs mtime res (delete_old parsed) with
        | (fs', Raised e) => (fs', Raised e)
        | (fs', Returned _) =>
            (fs', Returned (report, (length res, length (concat res))))
        end.
Proof.
  intros Hfind. unfold main. rewrite Hfind.
  unfold find_duplicates in Hfind.
  destruct (get_files _ _ _ _ _ _) as [FILES|e]; [|done].
  rewrite bind_Ok in Hfind.
  destruct (result_within_input_aux _ _ _ _ Hfind) as (Hsub & Hne & Hex).
  destruct (print_duplicates_returns fs res (top (parse_arguments parsed)))
    as [report Hreport]; [done | |].
  { apply Forall_forall. intros p Hp. rewrite Forall_forall in Hex.
    apply getsize_returns_inv, Hex. by eapply elem_of_submseteq. }
  exists report. split; [done |]. rewrite Hreport.
  destruct (parse_arguments_keeps parsed) as (_ & _ & _ & ->).
  by rewrite foldl_sum_lengths.
Qed.

(** X19: the program never creates or changes a file, and what it removes
    is a reported duplicate.  After any run every path is as it was or is
    gone; without [-delete] the file system is unchanged; a path that is gone
    ends in [.pdf] and was no symbolic link. *)
Theorem main_only_removes_duplicates walk islink abspath mtime fs parsed :
  let fs' := (main walk islink abspath mtime fs parsed).1 in
  fs' ⊆ fs
  ∧ (delete_old parsed = false → fs' = fs)
  ∧ ∀ q, fs' !! q ≠ fs !! q →
         fs' !! q = None ∧ endswith ".pdf" q = true ∧ islink q = false.
Proof.
  cbv zeta.
  destruct (find_duplicates walk islink abspath fs parsed) as [res|e]
    eqn:Hfind.
  2:{ unfold main. rewrite Hfind. simpl. by split_and!. }
  destruct (main_run _ _ _ mtime _ _ _ Hfind) as (report & _ & ->).
  pose proof (delete_duplicates_only_removes_aux fs mtime res
                (delete_old parsed)) as Hdel.
  assert ((match delete_duplicates fs mtime res (delete_old parsed) with
           | (fs', Raised e) =>
               (fs', Raised e : outcome (list report_entry * (nat * nat)))
           | (fs', Returned _) =>
               (fs', Returned (report, (length res, length (concat res))))
           end).1 = (delete_duplicates fs mtime res (delete_old parsed)).1)
    as ->.
  { by destruct (delete_duplicates fs mtime res (delete_old parsed))
      as [fs1 [[]|e]]. }
  split_and!.
  - apply map_subseteq_spec. intros q x Hx.
    destruct (Hdel q) as [Heq|[Hnone _]]; congruence.
  - intros ->. done.
  - intros q Hq. destruct (Hdel q) as [Heq|[Hnone Hin]]; [done |].
    split; [done |]. apply elem_of_concat in Hin as (g & Hg & Hqg).
    unfold find_duplicates in Hfind.
    destruct (parse_arguments_keeps parsed) as (Hh & He & _).
    rewrite Hh, He in Hfind.
    destruct (get_files walk islink abspath fs _ _) as [FILES|e] eqn:Hfiles;
      [|done].
    rewrite bind_Ok in Hfind.
    destruct (result_within_input_aux _ _ _ _ Hfind) as (Hsub & _ & _).
    assert (q ∈ FILES) as HqF.
    { eapply elem_of_submseteq; [|exact Hsub].
      apply elem_of_concat. by exists g. }
    destruct (get_files_member _ _ _ _ _ _ _ _ Hfiles HqF)
      as (e & _ & -> & Hw).
    by apply wanted_facts in Hw as (? & ? & _).
Qed.

Lemma main_only_removes_duplicates_witness :
  (main docs_walk (λ _, false) home_abspath docs_mtime docs_fs delete_args).1
    !! "docs/a.pdf"%string = None
  ∧ endswith ".pdf" "docs/a.pdf" = true
  ∧ false = false.
Proof.
  destruct (main_only_removes_duplicates docs_walk (λ _, false) home_abspath
              docs_mtime docs_fs delete_args) as (_ & _ & Hgone).
  apply (Hgone "docs/a.pdf"%string). vm_compute. discriminate.
Defined.



(** ** What a completed run tells *)






(** * What the pipeline raises *)






(** * The sort keys are asked for first *)

Lemma with_keys_raised {A} (key : A → outcome Z) (l : list A) x e :
  x ∈ l → key x = Raised e → ∃ e', with_keys key l = Raised e'.
Proof.
  induction l as [|a l IH]; intros Hx He; [by apply elem_of_nil in Hx |].
  simpl. destruct (key a) as [k|e'] eqn:Ha; simpl; [|by eexists].
  apply elem_of_cons in Hx as [->|Hx]; [congruence |].
  destruct (IH Hx He) as [e'' ->]. by eexists.
Qed.

Lemma sorted_reverse_raised {A} (key : A → outcome Z) (l : list A) x e :
  x ∈ l → key x = Raised e → ∃ e', sorted_reverse key l = Raised e'.
Proof.
  intros Hx He. unfold sorted_reverse.
  destruct (with_keys_raised key l x e Hx He) as [e' ->]. by eexists.
Qed.




(** X24: [delete_duplicates] removes nothing when one of the given groups
    is empty or has a first path that does not exist: with [delete] it
    raises while it sorts the groups, before the first file is removed. *)
Theorem delete_duplicates_checks_first fs mtime files g :
  g ∈ files →
  g = [] ∨ (∃ p rest, g = p :: rest ∧ fs !! p = None) →
  ∃ e, delete_duplicates fs mtime files true = (fs, Raised e).
Proof.
  intros Hg Hbad. unfold delete_duplicates.
  assert (∃ e, getsize_first fs g = Raised e) as [e He].
  { destruct Hbad as [->|(p & rest & -> & Hp)]; simpl; [by eexists |].
    rewrite Hp. by eexists. }
  destruct (sorted_reverse_raised _ _ _ _ Hg He) as [e' ->]. by eexists.
Qed.

Lemma delete_duplicates_checks_first_witness :
  ∃ e, delete_duplicates sample_fs (λ _, 0%Z)
         [["a1"; "a2"]; ["gone"; "c1"]]%string true
       = (sample_fs, Raised e).
Proof.
  apply (delete_duplicates_checks_first sample_fs (λ _, 0%Z)
           [["a1"; "a2"]; ["gone"; "c1"]]%string ["gone"; "c1"]%string).
  - right. left.
  - right. exists "gone"%string, ["c1"%string]. split; reflexivity.
Defined.
